(** * signalocr: the OCR batch pipeline of [app.py]

    A shallow embedding of [app.py] (image discovery, reading-order
    reconstruction, URL extraction, output aggregation) and the
    properties of its specification.

    Conventions of the embedding.
    - A Python [str] is a list of Unicode code points ([list N]).
    - The coordinates of a bounding box are Python floats; the finite
      floats are dyadic rationals and both negation and comparison are
      exact on them, so they are modelled in [Q] (no NaN).
    - [list.sort(key=...)] is the stable sort by the [<] of the keys.
    - The tables of the interpreter's Unicode database that the code
      consults ([\w] of [re], [str.lower]) are parameters.
    - File-system calls succeed; their effects are recorded in a log. *)

From Stdlib Require Import List String Ascii NArith ZArith QArith Bool Lia.
From Stdlib Require Import Permutation Sorted DecimalString.
From stdpp Require Import gmap.
Import ListNotations.

Unset Default Proof Using.

(** ** Stable sorting, as [list.sort] does it *)

Section StableSortDef.
Context {A : Type}.
Variable lt : A -> A -> bool.

(** [insert x s] puts [x] in front of the first element that is not
    strictly smaller: [x] comes from an earlier position of the input
    than everything in [s], so equal keys keep their input order. *)
Fixpoint insert (x : A) (s : list A) : list A :=
  match s with
  | [] => [x]
  | h :: t => if lt h x then h :: insert x t else x :: h :: t
  end.

Fixpoint list_sort (l : list A) : list A :=
  match l with
  | [] => []
  | x :: l' => insert x (list_sort l')
  end.

Definition le (a b : A) : Prop := lt b a = false.
Definition equiv (a b : A) : Prop := lt a b = false /\ lt b a = false.

(** Observation of the elements: [g] is what is read off an element
    once the list is sorted.  Two lists are [alike] when they agree
    position by position up to the order's equivalence and [g]. *)
Context {B : Type}.
Variable g : A -> B.

Definition same (a b : A) : Prop := equiv a b /\ g a = g b.
Definition alike : list A -> list A -> Prop := Forall2 same.

Definition ties_agree (l : list A) : Prop :=
  forall a b, In a l -> In b l -> equiv a b -> g a = g b.
End StableSortDef.

(** ** Python strings: sequences of code points *)

Abbreviation char := N (only parsing).
Abbreviation str := (list N) (only parsing).

(** A string literal of the source (ASCII). *)
Definition lit (s : string) : str :=
  map N_of_ascii (list_ascii_of_string s).

Definition NL : char := 10%N.
Definition QUOTE : char := 34%N.

Fixpoint str_eqb (a b : str) : bool :=
  match a, b with
  | [], [] => true
  | x :: a', y :: b' => N.eqb x y && str_eqb a' b'
  | _, _ => false
  end.

(** [a < b] on [str]: lexicographic on code points. *)
Fixpoint str_lt (a b : str) : bool :=
  match a, b with
  | _, [] => false
  | [], _ :: _ => true
  | x :: a', y :: b' =>
      if N.ltb x y then true else if N.ltb y x then false else str_lt a' b'
  end.

(** [Py_UNICODE_ISSPACE]: what [str.strip], [str.isspace] and the [\s]
    of [re] call white space. *)
Definition is_space (c : char) : bool :=
  ((9 <=? c) && (c <=? 13) || (28 <=? c) && (c <=? 32)
   || (c =? 133) || (c =? 160) || (c =? 5760)
   || (8192 <=? c) && (c <=? 8202)
   || (c =? 8232) || (c =? 8233) || (c =? 8239) || (c =? 8287)
   || (c =? 12288))%N.

(** The line boundaries of [str.splitlines]. *)
Definition is_linebreak (c : char) : bool :=
  ((10 <=? c) && (c <=? 13) || (28 <=? c) && (c <=? 30)
   || (c =? 133) || (c =? 8232) || (c =? 8233))%N.

Definition mem (c : char) (cs : str) : bool := existsb (N.eqb c) cs.

(** [s.startswith(p)] *)
Fixpoint startswith (s p : str) : bool :=
  match p, s with
  | [], _ => true
  | _ :: _, [] => false
  | x :: p', y :: s' => N.eqb x y && startswith s' p'
  end.

Fixpoint lstrip_by (f : char -> bool) (s : str) : str :=
  match s with
  | [] => []
  | c :: s' => if f c then lstrip_by f s' else s
  end.

Definition rstrip_by (f : char -> bool) (s : str) : str :=
  rev (lstrip_by f (rev s)).

(** [s.rstrip(chars)] and [s.strip()] *)
Definition rstrip (s chars : str) : str := rstrip_by (fun c => mem c chars) s.
Definition strip (s : str) : str := rstrip_by is_space (lstrip_by is_space s).

(** [sep.join(l)] *)
Fixpoint join (sep : str) (l : list str) : str :=
  match l with
  | [] => []
  | [x] => x
  | x :: l' => x ++ sep ++ join sep l'
  end.

(** [s.splitlines()]: a carriage return followed by a line feed is one
    boundary; no empty last line after a final boundary. *)
Fixpoint splitlines (s : str) : list str :=
  match s with
  | [] => []
  | c :: s' =>
      if is_linebreak c then
        [] :: match s' with
              | d :: s'' =>
                  if N.eqb c 13 && N.eqb d 10 then splitlines s''
                  else splitlines s'
              | [] => []
              end
      else match splitlines s' with
           | [] => [[c]]
           | l :: ls => (c :: l) :: ls
           end
  end.

(** [s.split(d)] for a one-character separator. *)
Fixpoint split_on (d : char) (s : str) : list str :=
  match s with
  | [] => [[]]
  | c :: s' =>
      if N.eqb c d then [] :: split_on d s'
      else match split_on d s' with
           | [] => [[c]]
           | l :: ls => (c :: l) :: ls
           end
  end.

(** [str(n)] for a length. *)
Definition decimal (n : nat) : str :=
  lit (DecimalString.NilZero.string_of_uint (Nat.to_uint n)).

(** *** [os.path] (POSIX) *)

Definition SLASH : char := 47%N.
Definition DOT : char := 46%N.

Fixpoint rfind_from (i : Z) (c : char) (s : str) (found : Z) : Z :=
  match s with
  | [] => found
  | x :: s' => rfind_from (i + 1) c s' (if N.eqb x c then i else found)
  end.

(** [s.rfind(c)]: the last index of [c], or -1. *)
Definition rfind (c : char) (s : str) : Z := rfind_from 0 c s (-1).

Definition basename (p : str) : str :=
  skipn (Z.to_nat (rfind SLASH p + 1)) p.

(** [genericpath._splitext]: the extension starts at the last dot of
    the last component, unless only dots precede it there. *)
Definition splitext (p : str) : str * str :=
  let sepIndex := rfind SLASH p in
  let dotIndex := rfind DOT p in
  let filename := firstn (Z.to_nat (dotIndex - (sepIndex + 1)))
                         (skipn (Z.to_nat (sepIndex + 1)) p) in
  if (sepIndex <? dotIndex)%Z && existsb (fun c => negb (N.eqb c DOT)) filename
  then (firstn (Z.to_nat dotIndex) p, skipn (Z.to_nat dotIndex) p)
  else (p, []).

Definition path_join (a b : str) : str :=
  if startswith b [SLASH] then b
  else match rev a with
       | [] => b
       | c :: _ => if N.eqb c SLASH then a ++ b else a ++ SLASH :: b
       end.

(** ** Reading order: lines 73-88 of [ocr_with_vision] *)

(** A [VNRecognizedTextObservation]: the origin of its bounding box and
    what [topCandidates_(1)] returns (the strings of the candidates). *)
Record Observation := {
  origin_x : Q;
  origin_y : Q;
  topCandidates : list str
}.

Definition Qltb (a b : Q) : bool := negb (Qle_bool b a).

(** [<] on the tuples [(-y, x)]: the first components that differ
    decide. *)
Definition tuple_lt (a b : Q * Q) : bool :=
  if Qeq_bool (fst a) (fst b)
  then if Qeq_bool (snd a) (snd b) then false else Qltb (snd a) (snd b)
  else Qltb (fst a) (fst b).

Definition _key (obs : Observation) : Q * Q :=
  (- origin_y obs, origin_x obs)%Q.

Definition obs_lt (a b : Observation) : bool := tuple_lt (_key a) (_key b).

(** The order of the keys, as a relation. *)
Definition lex_lt (a b : Q * Q) : Prop :=
  (fst a < fst b \/ (fst a == fst b /\ snd a < snd b))%Q.

(** Reading order: higher on the page first (larger [y], the origin
    being bottom-left), then further left. *)
Definition reading_le (a b : Observation) : Prop :=
  (origin_y b < origin_y a
   \/ (origin_y a == origin_y b /\ origin_x a <= origin_x b))%Q.

Definition same_origin (a b : Observation) : Prop :=
  (origin_x a == origin_x b /\ origin_y a == origin_y b)%Q.

(** The string an observation contributes, if any. *)
Definition line_of (obs : Observation) : option str :=
  match topCandidates obs with
  | [] => None
  | s :: _ => match s with [] => None | _ :: _ => Some s end
  end.

Fixpoint somes {X : Type} (l : list (option X)) : list X :=
  match l with
  | [] => []
  | Some x :: l' => x :: somes l'
  | None :: l' => somes l'
  end.

Definition reconstruct (results : list Observation) : str :=
  let sorted := list_sort obs_lt results in
  join [NL] (somes (map line_of sorted)).

Definition obs (x y : Q) (s : string) : Observation :=
  {| origin_x := x; origin_y := y; topCandidates := [lit s] |}.


(** ** The [re] engine

    A backtracking matcher: [matches r pw s] lists, in the order in
    which the engine tries them, the ways in which [r] matches a prefix
    of [s]; each is what is left of [s], with the word status of the
    last character before it.  [pw] is that status at the start
    (false at the beginning of the text).  The engine's answer is the
    first of the list. *)

Inductive regex :=
| Eps
| Cls (p : char -> bool)
| WordBoundary
| Seq (a b : regex)
| Alt (a b : regex)
| Star (a : regex).

Definition plus (r : regex) : regex := Seq r (Star r).
Definition opt (r : regex) : regex := Alt r Eps.
Definition seq (l : list regex) : regex := fold_right Seq Eps l.
Definition chr (c : char) : regex := Cls (N.eqb c).

(** A cased letter of a pattern compiled with [(?i)] matches every [x]
    whose simple lower case is the letter or one of its [_ignorecase_fixes]
    (for [s], the long s U+017F).  Used at [h], [t], [p], [s], [w]. *)
Definition icase (c : char) : regex :=
  Cls (fun x => mem x (c :: (c - 32) :: if c =? 115 then [383] else [])%N).

Section Engine.
(** [\w] of a [str] pattern: [str.isalnum] or the underscore, by the
    interpreter's Unicode database. *)
Variable is_word : char -> bool.

Definition at_boundary (pw : bool) (s : str) : bool :=
  xorb pw (match s with c :: _ => is_word c | [] => false end).

(** Greedy repetition: one more round of the body (which must consume
    something) is tried before stopping.  [fuel] bounds the rounds; the
    length of [s] is enough. *)
Fixpoint star_from (body : bool -> str -> list (bool * str))
    (fuel : nat) (pw : bool) (s : str) : list (bool * str) :=
  match fuel with
  | O => [(pw, s)]
  | S n =>
      flat_map (fun '(pw', s') =>
                  if (length s' <? length s)%nat
                  then star_from body n pw' s' else [])
               (body pw s)
      ++ [(pw, s)]
  end.

Fixpoint matches (r : regex) (pw : bool) (s : str) : list (bool * str) :=
  match r with
  | Eps => [(pw, s)]
  | Cls p =>
      match s with
      | c :: s' => if p c then [(is_word c, s')] else []
      | [] => []
      end
  | WordBoundary => if at_boundary pw s then [(pw, s)] else []
  | Seq a b => flat_map (fun '(pw', s') => matches b pw' s') (matches a pw s)
  | Alt a b => matches a pw s ++ matches b pw s
  | Star a => star_from (matches a) (length s) pw s
  end.

(** The length of the match of [r] at the start of [s], if any. *)
Definition match_at (r : regex) (pw : bool) (s : str) : option nat :=
  match matches r pw s with
  | (_, rest) :: _ => Some (length s - length rest)%nat
  | [] => None
  end.

(** [r.finditer(text)]: the leftmost match, then on from its end.
    [skip] counts the characters of the last match still to pass.
    (The patterns here never match the empty string.) *)
Fixpoint finditer_from (r : regex) (pw : bool) (skip : nat) (s : str)
    : list str :=
  match s with
  | [] => []
  | c :: s' =>
      match skip with
      | S n => finditer_from r (is_word c) n s'
      | O =>
          match match_at r pw s with
          | Some len =>
              firstn len s :: finditer_from r (is_word c) (len - 1) s'
          | None => finditer_from r (is_word c) 0 s'
          end
      end
  end.

Definition finditer (r : regex) (text : str) : list str :=
  finditer_from r false 0 text.
End Engine.

(** The least number of characters that a match of [r] consumes. *)
Fixpoint minlen (r : regex) : nat :=
  match r with
  | Eps | WordBoundary | Star _ => 0
  | Cls _ => 1
  | Seq a b => minlen a + minlen b
  | Alt a b => Nat.min (minlen a) (minlen b)
  end.

(** No class of [r] accepts the character [w]. *)
Fixpoint rejects (w : char) (r : regex) : bool :=
  match r with
  | Eps | WordBoundary => true
  | Cls p => negb (p w)
  | Seq a b | Alt a b => rejects w a && rejects w b
  | Star a => rejects w a
  end.

(** A result of matching in [a], seen in the text [a ++ tail]. *)
Definition push (tail : str) (res : bool * str) : bool * str :=
  (fst res, snd res ++ tail).

(** Two word tables agree on the characters of [s]. *)
Definition agree (tbl tbl' : char -> bool) (s : str) : Prop :=
  Forall (fun c => tbl c = tbl' c) s.

(** ** [URL_REGEX] and [extract_urls] *)

(** The first class of the pattern: any character but white space,
    angle brackets, the two quotes and parentheses. *)
Definition url_char (x : char) : bool :=
  negb (is_space x || mem x (QUOTE :: lit "<>'()")).

(** The class inside and after parentheses: parentheses allowed. *)
Definition url_char_paren (x : char) : bool :=
  negb (is_space x || mem x (QUOTE :: lit "<>'")).

Definition URL_REGEX : regex :=
  Seq WordBoundary
    (Seq (Alt (seq [icase 104; icase 116; icase 116; icase 112;
                    opt (icase 115); chr 58; chr 47; chr 47])
              (seq [icase 119; icase 119; icase 119; chr 46]))
    (Seq (plus (Cls url_char))
         (Star (seq [chr 40; Star (Cls url_char_paren); chr 41;
                     Star (Cls url_char_paren)]))))%N.

Definition normalize_url (m : str) : str :=
  let u := rstrip m (lit ".,;:!)?]") in
  if startswith u (lit "www.") then lit "http://" ++ u else u.

Definition extract_urls (is_word : char -> bool) (text : str) : list str :=
  map normalize_url (finditer is_word URL_REGEX text).

(** A token is delimited by white space when what is before it in the
    text is empty or ends with white space, and what is after it is
    empty or starts with white space. *)
Definition delimited_left (pre : str) : Prop :=
  pre = [] \/ exists pre' w, pre = pre' ++ [w] /\ is_space w = true.

Definition delimited_right (post : str) : Prop :=
  post = [] \/ exists w post', post = w :: post' /\ is_space w = true.

(** *** The ASCII part of the Unicode tables *)

Definition ascii_word (c : char) : bool :=
  ((48 <=? c) && (c <=? 57) || (65 <=? c) && (c <=? 90)
   || (97 <=? c) && (c <=? 122) || (c =? 95))%N.

Definition ascii_lower (s : str) : str :=
  map (fun c => if (65 <=? c) && (c <=? 90) then c + 32 else c)%N s.

Definition is_ascii (s : str) : Prop := Forall (fun c => c < 128)%N s.

(** What is assumed of the interpreter's [\w]: it is the ASCII one on
    ASCII, and no white space is a word character. *)
Definition word_table_ok (is_word : char -> bool) : Prop :=
  (forall c, (c < 128)%N -> is_word c = ascii_word c)
  /\ (forall c, is_space c = true -> is_word c = false).

(** What is assumed of the interpreter's [str.lower]. *)
Definition lower_table_ok (str_lower : str -> str) : Prop :=
  forall s, is_ascii s -> str_lower s = ascii_lower s.

(** ** The environment of a run *)

(** An [os.DirEntry]: its name and what [is_file()] answers. *)
Record DirEntry := {
  name : str;
  is_file : bool
}.

(** What the Vision calls of [ocr_with_vision] come to for an image. *)
Inductive VisionOutcome :=
| NoImage
    (** [cgimage_from_path] gives [None]: the image cannot be read *)
| RequestFailed
    (** [performRequests_error_] gives a false [ok] *)
| Performed (results : option (list Observation)).
    (** the request was performed; [request.results()], maybe [None] *)

Record Env := {
  expanduser : str -> str;
  isdir : str -> bool;
  scandir : str -> list DirEntry;
  recognize : str -> list str -> VisionOutcome
}.

(** The same environment with another listing of the directories, or
    with another outcome of the Vision calls. *)
Definition with_scandir (env : Env) (sc : str -> list DirEntry) : Env :=
  {| expanduser := expanduser env; isdir := isdir env;
     scandir := sc; recognize := recognize env |}.

Definition with_recognize (env : Env)
    (r : str -> list str -> VisionOutcome) : Env :=
  {| expanduser := expanduser env; isdir := isdir env;
     scandir := scandir env; recognize := r |}.

(** The two failures of the adapter, and the outcome with no region
    that they are said to amount to. *)
Definition failed (o : VisionOutcome) : bool :=
  match o with
  | NoImage | RequestFailed => true
  | Performed _ => false
  end.

Definition as_zero_regions (o : VisionOutcome) : VisionOutcome :=
  if failed o then Performed (Some []) else o.

(** What a run does to the outside, in order. *)
Inductive Effect :=
| Makedirs (d : str)
| WriteFile (path content : str)
| Print (line : str).

(** ** [ocr_with_vision] *)

Definition ocr_with_vision (env : Env) (path : str) (langs : list str) : str :=
  match recognize env path langs with
  | NoImage => []
  | RequestFailed => []
  | Performed results =>
      reconstruct (match results with Some l => l | None => [] end)
  end.

(** ** [list_images] *)

Definition SUPPORTED_EXTS : list str :=
  map lit [".png"; ".jpg"; ".jpeg"; ".tif"; ".tiff"; ".bmp"; ".gif"; ".heic"]%string.

Section Pipeline.
Variable is_word : char -> bool.
(** [str.lower], by the interpreter's Unicode database. *)
Variable str_lower : str -> str.

Definition supported (name : str) : bool :=
  existsb (str_eqb (str_lower (snd (splitext name)))) SUPPORTED_EXTS.

(** The entries that the loop of [list_images] keeps. *)
Definition eligible (entry : DirEntry) : bool :=
  is_file entry && negb (startswith (name entry) (lit "."))
  && supported (name entry).

Definition sort_key (p : str) : str := str_lower (basename p).

Definition path_lt (p q : str) : bool := str_lt (sort_key p) (sort_key q).

Definition list_images (env : Env) (in_dir : str) : list str :=
  let in_dir := expanduser env in_dir in
  if negb (isdir env in_dir) then []
  else
    let files :=
      map (fun entry => path_join in_dir (name entry))
          (List.filter eligible (scandir env in_dir)) in
    list_sort path_lt files.

(** ** [run] *)

Definition parse_langs (lang_str : str) : list str :=
  let langs :=
    match lang_str with
    | [] => []
    | _ :: _ =>
        List.filter (fun s => negb (str_eqb s []))
                    (map strip (split_on 44%N lang_str))
    end in
  match langs with
  | [] => [lit "en-US"; lit "pl-PL"]
  | _ :: _ => langs
  end.

Definition FENCE : str := lit "```".
Definition LINKS_LABEL : str := lit "**Links detected:**".
Definition RULE : str := [NL; NL] ++ lit "---" ++ [NL; NL].

(** The markdown section of an image. *)
Definition make_section (base text : str) (urls : list str) : str :=
  let section :=
    lit "## " ++ base ++ [NL; NL] ++ FENCE ++ [NL] ++ text ++ [NL]
    ++ FENCE ++ [NL] in
  match urls with
  | [] => section
  | _ :: _ =>
      section ++ [NL] ++ LINKS_LABEL ++ [NL]
      ++ join [NL] (map (fun u => lit "- " ++ u) urls) ++ [NL]
  end.

(** The plain block made from a markdown section (lines 148-153). *)
Definition framing (ln : str) : bool :=
  startswith ln FENCE || startswith ln LINKS_LABEL.

Definition plain_block (section : str) : str :=
  strip (join [NL] (List.filter (fun ln => negb (framing ln)) (splitlines section))).

(** The only line boundary in [s] is the line feed. *)
Definition only_line_feeds (s : str) : Prop :=
  Forall (fun c => is_linebreak c = true -> c = NL) s.

(** The section of an image without the framing lines, in the words
    of the specification: the heading, the recognized text and, if any,
    the list of links. *)
Definition unframed_section (base text : str) (urls : list str) : str :=
  let section := lit "## " ++ base ++ [NL; NL] ++ text ++ [NL] in
  match urls with
  | [] => section
  | _ :: _ =>
      section ++ [NL] ++ join [NL] (map (fun u => lit "- " ++ u) urls) ++ [NL]
  end.

Record Acc := {
  all_sections : list str;
  all_urls : list (str * str);
  log : list Effect
}.

(** One round of the loop over the images (lines 125-140). *)
Definition process_image (env : Env) (langs : list str) (txt_dir : str)
    (acc : Acc) (p : str) : Acc :=
  let base := fst (splitext (basename p)) in
  let text := ocr_with_vision env p langs in
  let txt_path := path_join txt_dir (base ++ lit ".txt") in
  let urls := extract_urls is_word text in
  {| all_sections := all_sections acc ++ [make_section base text urls];
     all_urls := all_urls acc ++ map (fun u => (base, u)) urls;
     log := log acc ++
       [WriteFile txt_path text;
        Print (lit "OCR: " ++ basename p ++ lit " -> " ++ txt_path
               ++ lit " (" ++ decimal (length text) ++ lit " chars, "
               ++ decimal (length urls) ++ lit " links)")] |}.

(** What the loop computes for one image, by name. *)
Definition image_base (p : str) : str := fst (splitext (basename p)).

Definition image_text (env : Env) (langs : list str) (p : str) : str :=
  ocr_with_vision env p langs.

Definition image_urls (env : Env) (langs : list str) (p : str) : list str :=
  extract_urls is_word (image_text env langs p).

Definition image_section (env : Env) (langs : list str) (p : str) : str :=
  make_section (image_base p) (image_text env langs p) (image_urls env langs p).

Definition image_occurrences (env : Env) (langs : list str) (p : str)
    : list (str * str) :=
  map (fun u => (image_base p, u)) (image_urls env langs p).

Definition txt_path_of (txt_dir p : str) : str :=
  path_join txt_dir (image_base p ++ lit ".txt").

Definition image_log (env : Env) (langs : list str) (txt_dir p : str)
    : list Effect :=
  [WriteFile (txt_path_of txt_dir p) (image_text env langs p);
   Print (lit "OCR: " ++ basename p ++ lit " -> " ++ txt_path_of txt_dir p
          ++ lit " (" ++ decimal (length (image_text env langs p))
          ++ lit " chars, "
          ++ decimal (length (image_urls env langs p)) ++ lit " links)")].

(** The loop with [seen] and [dedup_urls] (lines 156-161). *)
Definition dedup_step (st : gset (list N) * list str) (occ : str * str)
    : gset (list N) * list str :=
  let u := snd occ in
  if bool_decide (u ∈ fst st) then st
  else ({[ u ]} ∪ fst st, snd st ++ [u]).

Definition dedup_urls (all_urls : list (str * str)) : list str :=
  snd (fold_left dedup_step all_urls (∅, [])).

(** [csv.writer] with the default dialect: a field is quoted when it
    holds the delimiter, the quote or a character of the line
    terminator; quotes inside are doubled; rows end in CR LF. *)
Definition csv_field (f : str) : str :=
  if existsb (fun c => mem c [44; QUOTE; 13; 10]%N) f
  then QUOTE :: flat_map (fun c => if N.eqb c QUOTE then [QUOTE; QUOTE] else [c]) f
       ++ [QUOTE]
  else f.

Definition csv_row (fields : list str) : str :=
  join [44%N] (map csv_field fields) ++ [13; 10]%N.

Definition csv_file (rows : list (list str)) : str :=
  concat (map csv_row rows).

Definition urls_txt (all_urls : list (str * str)) : str :=
  let dedup := dedup_urls all_urls in
  join [NL] dedup ++ match dedup with [] => [] | _ :: _ => [NL] end.

Definition urls_csv (all_urls : list (str * str)) : str :=
  csv_file ([lit "file"; lit "url"]
            :: map (fun occ => [fst occ; snd occ]) all_urls).

Definition combined_md (sections : list str) : str :=
  lit "# OCR Output" ++ [NL; NL] ++ join RULE sections ++ [NL].

Definition combined_txt (sections : list str) : str :=
  join RULE (map plain_block sections) ++ [NL].

Definition summary (n : nat) (out_dir txt_dir : str) : str :=
  [NL] ++ lit "Done." ++ [NL]
  ++ lit "- Images: " ++ decimal n ++ [NL]
  ++ lit "- Per-image text: " ++ txt_dir ++ [NL]
  ++ lit "- Combined markdown: " ++ path_join out_dir (lit "all_text.md") ++ [NL]
  ++ lit "- Combined text: " ++ path_join out_dir (lit "all_text.txt") ++ [NL]
  ++ lit "- URLs (dedup): " ++ path_join out_dir (lit "urls.txt") ++ [NL]
  ++ lit "- URL map CSV: " ++ path_join out_dir (lit "urls.csv").

Definition run (env : Env) (in_dir out_dir lang_str : str) : list Effect :=
  let out_dir := expanduser env out_dir in
  let imgs := list_images env in_dir in
  match imgs with
  | [] => [Makedirs out_dir; Print (lit "No images found.")]
  | _ :: _ =>
      let langs := parse_langs lang_str in
      let txt_dir := path_join out_dir (lit "txt") in
      let acc :=
        fold_left (process_image env langs txt_dir) imgs
          {| all_sections := []; all_urls := [];
             log := [Makedirs out_dir; Makedirs txt_dir] |} in
      log acc ++
      [WriteFile (path_join out_dir (lit "all_text.md"))
                 (combined_md (all_sections acc));
       WriteFile (path_join out_dir (lit "all_text.txt"))
                 (combined_txt (all_sections acc));
       WriteFile (path_join out_dir (lit "urls.txt")) (urls_txt (all_urls acc));
       WriteFile (path_join out_dir (lit "urls.csv")) (urls_csv (all_urls acc));
       Print (summary (length imgs) out_dir txt_dir)]
  end.

(** ** The script ([__main__]): the effects and the exit status *)

Definition USAGE : str :=
  lit "Usage: python3 app.py <input_dir> <output_dir> "
  ++ [QUOTE] ++ lit "en-US,pl-PL" ++ [QUOTE].

Definition main (env : Env) (argv : list str) : list Effect * Z :=
  if (length argv <? 3)%nat then ([Print USAGE], 1%Z)
  else
    let in_dir := expanduser env (nth 1 argv []) in
    let out_dir := expanduser env (nth 2 argv []) in
    let lang_str :=
      if (4 <=? length argv)%nat then nth 3 argv [] else lit "en-US,pl-PL" in
    (run env in_dir out_dir lang_str, 0%Z).
End Pipeline.

(** The four aggregate files of a run, in the order of their writing. *)
Definition aggregate_writes (out_dir : str) (sections : list str)
    (occs : list (str * str)) : list (str * str) :=
  [(path_join out_dir (lit "all_text.md"), combined_md sections);
   (path_join out_dir (lit "all_text.txt"), combined_txt sections);
   (path_join out_dir (lit "urls.txt"), urls_txt occs);
   (path_join out_dir (lit "urls.csv"), urls_csv occs)].

(** *** The deduplicated list, in the words of the specification *)

Definition mem_str (u : str) (l : list str) : bool := existsb (str_eqb u) l.

(** The distinct elements of [l], each at the place of its first
    occurrence. *)
Fixpoint first_seen (l : list str) : list str :=
  match l with
  | [] => []
  | u :: l' => u :: List.filter (fun v => negb (str_eqb v u)) (first_seen l')
  end.

(** *** Reading the log *)

(** What the process printed: each [print] ends its line. *)
Definition stdout (l : list Effect) : str :=
  flat_map (fun e => match e with Print s => s ++ [NL] | _ => [] end) l.

(** The files written, in order. *)
Definition writes (l : list Effect) : list (str * str) :=
  flat_map (fun e => match e with WriteFile p c => [(p, c)] | _ => [] end) l.

(** The content of [path] after the run: its last write. *)
Definition file_content (l : list Effect) (path : str) : option str :=
  match List.filter (fun pc => str_eqb (fst pc) path) (rev (writes l)) with
  | [] => None
  | (_, c) :: _ => Some c
  end.

(** *** A small environment, for examples

    A directory [in] with three images, a hidden file, a text file and
    a sub-directory; [corrupt.png] cannot be read; the two others show
    two lines each. *)

Definition file (n : string) : DirEntry := {| name := lit n; is_file := true |}.

Definition demo_env : Env := {|
  expanduser := fun p => p;
  isdir := fun p => str_eqb p (lit "in");
  scandir := fun _ =>
    [file "good1.png"; file "corrupt.png"; file "good2.png";
     file ".hidden.png"; file "notes.txt";
     {| name := lit "dir.png"; is_file := false |}];
  recognize := fun p _ =>
    if str_eqb p (lit "in/corrupt.png") then NoImage
    else Performed (Some [obs 0 0.5 "see www.a.org, and";
                          obs 0 0.9 "http://b.org www.a.org"])
|}.

(** The batch [good1.png, corrupt.png, good2.png], listed in this
    order, with any outcome of the Vision calls. *)
Definition three_images (vision : str -> list str -> VisionOutcome) : Env := {|
  expanduser := fun p => p;
  isdir := fun p => str_eqb p (lit "in");
  scandir := fun _ => [file "good1.png"; file "corrupt.png"; file "good2.png"];
  recognize := vision
|}.

Definition demo_vision (p : str) (langs : list str) : VisionOutcome :=
  if str_eqb p (lit "in/corrupt.png") then NoImage
  else Performed (Some [obs 0 0.5 "see www.a.org, and";
                        obs 0 0.9 "http://b.org www.a.org"]).

(** A directory with two images whose names differ in case only, in
    the two orders in which it can be listed. *)
Definition case_vision (p : str) (langs : list str) : VisionOutcome :=
  if str_eqb p (lit "in/A.png") then Performed (Some [obs 0 0 "upper"])
  else Performed (Some [obs 0 0 "lower"]).

Definition case_env (listing : list DirEntry) : Env := {|
  expanduser := fun p => p;
  isdir := fun p => str_eqb p (lit "in");
  scandir := fun _ => listing;
  recognize := case_vision
|}.

Definition demo_batch : Env := three_images demo_vision.

(** The sections of [all_text.md] in the run on [demo_batch]. *)
Definition demo_sections : list str :=
  map (image_section ascii_word demo_batch (parse_langs (lit "en-US")))
      (list_images ascii_lower demo_batch (lit "in")).

(** An image of a chat about code: one of its lines starts a fenced
    block. *)
Definition fence_text : str :=
  lit "a" ++ [NL] ++ lit "```js" ++ [NL] ++ lit "b".

Definition fence_env : Env := {|
  expanduser := fun p => p;
  isdir := fun p => str_eqb p (lit "in");
  scandir := fun _ => [file "shot.png"];
  recognize := fun _ _ =>
    Performed (Some [obs 0 0.9 "a"; obs 0 0.8 "```js"; obs 0 0.7 "b"])
|}.

(** ** Further notions, for the properties of the code beyond the claims *)

(** The observation gives a line to the text block. *)
Definition has_line (o : Observation) : bool :=
  match line_of o with Some _ => true | None => false end.

(** The observation has the bounding-box origin of [o]. *)
Definition at_origin_of (o a : Observation) : bool :=
  Qeq_bool (origin_x o) (origin_x a) && Qeq_bool (origin_y o) (origin_y a).

(** [u] begins with one character of each of the classes, in order. *)
Fixpoint begins_with (classes : list (list N)) (u : str) : bool :=
  match classes, u with
  | [], _ => true
  | _ :: _, [] => false
  | cs :: classes', c :: u' => mem c cs && begins_with classes' u'
  end.

(** [http://], [https://] and [www] in any letter case (with the long
    s that [(?i)] takes for an s). *)
Definition HTTP_ANY_CASE : list (list N) :=
  [[104; 72]; [116; 84]; [116; 84]; [112; 80]; [58]; [47]; [47]]%N.

Definition HTTPS_ANY_CASE : list (list N) :=
  [[104; 72]; [116; 84]; [116; 84]; [112; 80]; [115; 83; 383];
   [58]; [47]; [47]]%N.

Definition WWW_ANY_CASE : list (list N) :=
  [[119; 87]; [119; 87]; [119; 87]]%N.

(** The characters stripped from the end of a match. *)
Definition strippable (c : char) : bool := mem c (lit ".,;:!)?]").

(** [gaps] and [ms] in turn: a gap, a match, a gap, ..., a last gap. *)
Fixpoint interleave (gaps ms : list str) : str :=
  match gaps, ms with
  | g :: gaps', m :: ms' => g ++ m ++ interleave gaps' ms'
  | g :: _, [] => g
  | [], _ => []
  end.

(** Only white space and commas. *)
Definition blank_tags (lang_str : str) : Prop :=
  Forall (fun c => is_space c = true \/ c = 44%N) lang_str.

(** A directory with two images of the same stem. *)
Definition twin_vision (p : str) (langs : list str) : VisionOutcome :=
  if str_eqb p (lit "in/a.png") then Performed (Some [obs 0 0 "from png"])
  else Performed (Some [obs 0 0 "from jpg"]).

Definition twin_env : Env := {|
  expanduser := fun p => p;
  isdir := fun p => str_eqb p (lit "in");
  scandir := fun _ => [file "a.png"; file "a.jpg"];
  recognize := twin_vision
|}.

(** [r] is empty or begins with a character outside the class [f]. *)
Definition stops_at (f : char -> bool) (r : str) : Prop :=
  match r with
  | [] => True
  | c :: _ => f c = false
  end.

(** The parenthesized group of [URL_REGEX] and what follows the
    opening parenthesis in it. *)
Definition URL_GROUP_TAIL : regex :=
  Seq (chr 41) (Seq (Star (Cls url_char_paren)) Eps).

Definition URL_GROUP : regex :=
  Seq (chr 40) (Seq (Star (Cls url_char_paren)) URL_GROUP_TAIL).

Definition URL_BODY : regex := Seq (plus (Cls url_char)) (Star URL_GROUP).
(** * Properties *)

(** ** Stable sorting *)

Section StableSort.
Context {A : Type}.
Variable lt : A -> A -> bool.
Local Abbreviation insert := (insert lt).
Local Abbreviation list_sort := (list_sort lt).
Local Abbreviation le := (le lt).
Local Abbreviation equiv := (equiv lt).


Lemma insert_perm x s : Permutation (x :: s) (insert x s).
Proof.
  induction s as [|h t IH]; simpl; [reflexivity|].
  destruct (lt h x); [|reflexivity].
  rewrite perm_swap. now apply perm_skip.
Qed.

Lemma list_sort_perm l : Permutation l (list_sort l).
Proof.
  induction l as [|x l IH]; simpl; [constructor|].
  rewrite <- insert_perm. now apply perm_skip.
Qed.

(** The comparison is a strict weak order. *)
Hypothesis lt_asym : forall a b, lt a b = true -> lt b a = false.
Hypothesis le_trans : forall a b c, le a b -> le b c -> le a c.

Lemma lt_irrefl a : lt a a = false.
Proof.
  destruct (lt a a) eqn:E; [|reflexivity].
  now rewrite (lt_asym _ _ E) in E.
Qed.

Lemma lt_le a b : lt a b = true -> le a b.
Proof. apply lt_asym. Qed.

Lemma lt_le_trans a b c : lt a b = true -> le b c -> lt a c = true.
Proof.
  intros Hab Hbc. destruct (lt a c) eqn:E; [reflexivity|].
  assert (le b a) as H by (apply (le_trans _ c); assumption).
  unfold le in H. congruence.
Qed.

Lemma le_lt_trans a b c : le a b -> lt b c = true -> lt a c = true.
Proof.
  intros Hab Hbc. destruct (lt a c) eqn:E; [reflexivity|].
  assert (le c b) as H by (apply (le_trans _ a); assumption).
  unfold le in H. congruence.
Qed.

Lemma equiv_refl a : equiv a a.
Proof. split; apply lt_irrefl. Qed.

Lemma equiv_sym a b : equiv a b -> equiv b a.
Proof. intros []; now split. Qed.

Lemma equiv_trans a b c : equiv a b -> equiv b c -> equiv a c.
Proof.
  intros [H1 H2] [H3 H4]. split.
  - apply (le_trans c b a); assumption.
  - apply (le_trans a b c); assumption.
Qed.

Lemma equiv_lt_l a b c : equiv a b -> lt a c = lt b c.
Proof.
  intros [H1 H2].
  destruct (lt a c) eqn:Ea, (lt b c) eqn:Eb; try reflexivity.
  - rewrite (le_lt_trans b a c) in Eb; [discriminate|exact H1|exact Ea].
  - rewrite (le_lt_trans a b c) in Ea; [discriminate|exact H2|exact Eb].
Qed.

Lemma insert_sorted x s :
  StronglySorted le s -> StronglySorted le (insert x s).
Proof.
  induction 1 as [|h t Hs IH Hh]; simpl.
  - repeat constructor.
  - destruct (lt h x) eqn:E.
    + constructor; [exact IH|].
      apply (Permutation_Forall (insert_perm x t)).
      constructor; [now apply lt_le | exact Hh].
    + constructor; [now constructor|].
      constructor; [exact E|].
      eapply List.Forall_impl; [|exact Hh].
      intros c Hc. now apply (le_trans x h c).
Qed.

Lemma list_sort_sorted l : StronglySorted le (list_sort l).
Proof.
  induction l; simpl; [constructor | now apply insert_sorted].
Qed.



Context {B : Type}.
Variable g : A -> B.
Local Abbreviation same := (same lt g).
Local Abbreviation alike := (alike lt g).
Local Abbreviation ties_agree := (ties_agree lt g).

Lemma same_refl a : same a a.
Proof. split; [apply equiv_refl | reflexivity]. Qed.

Lemma alike_refl l : alike l l.
Proof. induction l; constructor; [apply same_refl | assumption]. Qed.

Lemma alike_trans l1 l2 l3 : alike l1 l2 -> alike l2 l3 -> alike l1 l3.
Proof.
  intros H; revert l3.
  induction H as [|a b l1 l2 [Hab Hg] H IH]; intros l3 H3;
    inversion H3 as [|? c ? l3' [Hbc Hg'] H3']; subst; constructor.
  - split; [now apply (equiv_trans a b c) | congruence].
  - now apply IH.
Qed.

Lemma alike_map l1 l2 : alike l1 l2 -> map g l1 = map g l2.
Proof.
  induction 1 as [|a b l1 l2 [_ Hg] _ IH]; simpl; [reflexivity|].
  now rewrite Hg, IH.
Qed.

Lemma insert_alike x s1 s2 :
  alike s1 s2 -> alike (insert x s1) (insert x s2).
Proof.
  induction 1 as [|a b l1 l2 Hab H IH]; simpl.
  - apply alike_refl.
  - rewrite (equiv_lt_l a b x (proj1 Hab)).
    destruct (lt b x).
    + now constructor.
    + constructor; [apply same_refl|]. now constructor.
Qed.

Lemma insert_insert_alike x y s :
  (equiv x y -> g x = g y) ->
  alike (insert y (insert x s)) (insert x (insert y s)).
Proof.
  intros Hxy.
  assert (Hbase : forall t,
    alike (if lt x y then x :: y :: t else y :: x :: t)
          (if lt y x then y :: x :: t else x :: y :: t)).
  { intros t. destruct (lt x y) eqn:Exy.
    - rewrite (lt_asym _ _ Exy). apply alike_refl.
    - destruct (lt y x) eqn:Eyx; [apply alike_refl|].
      assert (equiv x y) as He by now split.
      constructor; [split; [now apply equiv_sym | symmetry; auto]|].
      constructor; [split; auto|]. apply alike_refl. }
  induction s as [|h t IH]; simpl.
  - apply Hbase.
  - destruct (lt h x) eqn:Ehx, (lt h y) eqn:Ehy; simpl;
      rewrite ?Ehx, ?Ehy.
    + constructor; [apply same_refl | exact IH].
    + rewrite (le_lt_trans y h x Ehy Ehx). apply alike_refl.
    + rewrite (le_lt_trans x h y Ehx Ehy). apply alike_refl.
    + apply Hbase.
Qed.


Lemma list_sort_alike l l' :
  Permutation l l' -> ties_agree l -> alike (list_sort l) (list_sort l').
Proof.
  induction 1 as [|x l l' Hp IH|x y l|l l' l'' Hp1 IH1 Hp2 IH2]; intros Ht.
  - constructor.
  - simpl. apply insert_alike, IH.
    intros a b Ha Hb. apply Ht; now right.
  - simpl. apply insert_insert_alike.
    intros He. apply Ht; simpl; auto.
  - apply (alike_trans _ (list_sort l')); [now apply IH1|].
    apply IH2. intros a b Ha Hb.
    apply Ht; eapply Permutation_in; try eassumption;
      now apply Permutation_sym.
Qed.

(** What is read off the sorted list does not depend on the order of
    the input, as long as elements that compare equal read the same. *)
Lemma list_sort_permutation_invariant l l' :
  Permutation l l' -> ties_agree l ->
  map g (list_sort l) = map g (list_sort l').
Proof. intros Hp Ht. now apply alike_map, list_sort_alike. Qed.
End StableSort.

(** ** Sanity checks of the string model *)

Example reconstruct_page :
  reconstruct [obs 0.5 0.2 "c"; obs 0.1 0.9 "a"; obs 0.6 0.9 "b"; obs 0 0.1 ""]
  = lit "a" ++ [NL] ++ lit "b" ++ [NL] ++ lit "c".
Proof. vm_compute. reflexivity. Qed.

Example splitlines_ex :
  splitlines (lit "ab" ++ [13; 10] ++ lit "c" ++ [10; 10] ++ lit "d" ++ [10])%N
  = [lit "ab"; lit "c"; []; lit "d"].
Proof. reflexivity. Qed.

Example splitext_ex :
  splitext (lit "a.b/.x.PNG") = (lit "a.b/.x", lit ".PNG")
  /\ splitext (lit "dir.d/name") = (lit "dir.d/name", [])
  /\ splitext (lit "..png") = (lit "..png", [])
  /\ basename (lit "/a/b/c.png") = lit "c.png"
  /\ decimal 120 = lit "120" /\ decimal 0 = lit "0".
Proof. vm_compute. repeat split. Qed.

(** *** The order of the keys *)

Lemma Qltb_spec (a b : Q) : Qltb a b = true <-> (a < b)%Q.
Proof.
  unfold Qltb. rewrite negb_true_iff.
  destruct (Qle_bool b a) eqn:E.
  - apply Qle_bool_iff in E. split; [discriminate|].
    intros H. exfalso. exact (Qlt_not_le _ _ H E).
  - split; [intros _|reflexivity].
    apply Qnot_le_lt. intros H. apply Qle_bool_iff in H. congruence.
Qed.

Lemma tuple_lt_spec a b : tuple_lt a b = true <-> lex_lt a b.
Proof.
  unfold tuple_lt, lex_lt.
  destruct (Qeq_bool (fst a) (fst b)) eqn:E1.
  - apply Qeq_bool_iff in E1.
    destruct (Qeq_bool (snd a) (snd b)) eqn:E2.
    + apply Qeq_bool_iff in E2. split; [discriminate|].
      intros [H|[_ H]]; exfalso.
      * rewrite E1 in H. exact (Qlt_irrefl _ H).
      * rewrite E2 in H. exact (Qlt_irrefl _ H).
    + rewrite Qltb_spec. split; [intros H; right; now split|].
      intros [H|[_ H]]; [|exact H].
      exfalso. rewrite E1 in H. exact (Qlt_irrefl _ H).
  - apply Qeq_bool_neq in E1. rewrite Qltb_spec.
    split; [now left|]. intros [H|[H _]]; [exact H|contradiction].
Qed.

Lemma lex_lt_asym a b : lex_lt a b -> ~ lex_lt b a.
Proof.
  unfold lex_lt. intros [H|[H1 H2]] [K|[K1 K2]].
  - exact (Qlt_irrefl _ (Qlt_trans _ _ _ H K)).
  - rewrite K1 in H. exact (Qlt_irrefl _ H).
  - rewrite H1 in K. exact (Qlt_irrefl _ K).
  - exact (Qlt_irrefl _ (Qlt_trans _ _ _ H2 K2)).
Qed.

(** Negation of [lex_lt] is the lexicographic [<=]. *)
Lemma not_lex_lt a b :
  ~ lex_lt b a <-> (fst a < fst b \/ (fst a == fst b /\ snd a <= snd b))%Q.
Proof.
  unfold lex_lt. split.
  - intros H.
    destruct (Q_dec (fst a) (fst b)) as [[Hlt|Hgt]|Heq].
    + now left.
    + exfalso. apply H. now left.
    + right. split; [exact Heq|].
      apply Qnot_lt_le. intros K. apply H. right. split; [|exact K].
      now symmetry.
  - intros [H|[H1 H2]] [K|[K1 K2]].
    + exact (Qlt_irrefl _ (Qlt_trans _ _ _ H K)).
    + rewrite K1 in H. exact (Qlt_irrefl _ H).
    + rewrite H1 in K. exact (Qlt_irrefl _ K).
    + exact (Qlt_not_le _ _ K2 H2).
Qed.

Lemma tuple_lt_false a b :
  tuple_lt b a = false <->
  (fst a < fst b \/ (fst a == fst b /\ snd a <= snd b))%Q.
Proof.
  rewrite <- not_lex_lt, <- tuple_lt_spec.
  destruct (tuple_lt b a); split; congruence.
Qed.

Lemma obs_lt_asym a b : obs_lt a b = true -> obs_lt b a = false.
Proof.
  unfold obs_lt. intros H. apply tuple_lt_spec in H.
  destruct (tuple_lt (_key b) (_key a)) eqn:E; [|reflexivity].
  apply tuple_lt_spec in E. now destruct (lex_lt_asym _ _ H).
Qed.

Lemma obs_le_trans a b c :
  le obs_lt a b -> le obs_lt b c -> le obs_lt a c.
Proof.
  unfold le, obs_lt. rewrite !tuple_lt_false.
  intros [H|[H1 H2]] [K|[K1 K2]].
  - left. exact (Qlt_trans _ _ _ H K).
  - left. now rewrite <- K1.
  - left. now rewrite H1.
  - right. split; [now rewrite H1|]. exact (Qle_trans _ _ _ H2 K2).
Qed.

Lemma le_obs_reading a b : le obs_lt a b <-> reading_le a b.
Proof.
  unfold le, obs_lt, reading_le. rewrite tuple_lt_false. simpl.
  split; (intros [H|[H1 H2]]; [left|right; split; [|exact H2]]).
  - apply Qopp_lt_compat in H. now rewrite !Qopp_involutive in H.
  - rewrite <- (Qopp_involutive (origin_y a)), <- (Qopp_involutive (origin_y b)).
    now rewrite H1.
  - now apply Qopp_lt_compat.
  - now rewrite H1.
Qed.

Lemma equiv_obs_same_origin a b : equiv obs_lt a b -> same_origin a b.
Proof.
  unfold equiv. intros [H1 H2].
  apply (le_obs_reading b a) in H1. apply (le_obs_reading a b) in H2.
  unfold reading_le, same_origin in *.
  destruct H1 as [H1|[H1 H1']], H2 as [H2|[H2 H2']].
  - exfalso. exact (Qlt_irrefl _ (Qlt_trans _ _ _ H1 H2)).
  - exfalso. rewrite H2 in H1. exact (Qlt_irrefl _ H1).
  - exfalso. rewrite H1 in H2. exact (Qlt_irrefl _ H2).
  - split; [|exact H2]. now apply Qle_antisym.
Qed.

Lemma StronglySorted_weaken {A} (R R' : A -> A -> Prop) l :
  (forall a b, R a b -> R' a b) -> StronglySorted R l -> StronglySorted R' l.
Proof.
  intros HR. induction 1 as [|a l Hs IH Ha]; constructor; [exact IH|].
  eapply List.Forall_impl; [|exact Ha]. intros b. apply HR.
Qed.

(** ** Reading order (C1) *)

Example reconstruct_tie_left_first :
  reconstruct [obs 0.3 0.5 "left"; obs 0.3 0.5 "right"]
  = lit "left" ++ [NL] ++ lit "right".
Proof. vm_compute. reflexivity. Qed.

(** C1, as stated, fails: two regions with the same bounding-box origin
    and different texts come out in the order in which they went in, so
    the two orders of this collection give two text blocks. *)
Lemma reconstruct_depends_on_input_order :
  Permutation [obs 0.3 0.5 "left"; obs 0.3 0.5 "right"]
              [obs 0.3 0.5 "right"; obs 0.3 0.5 "left"]
  /\ reconstruct [obs 0.3 0.5 "left"; obs 0.3 0.5 "right"]
     <> reconstruct [obs 0.3 0.5 "right"; obs 0.3 0.5 "left"].
Proof.
  split; [apply perm_swap|]. vm_compute. discriminate.
Qed.

(** C1, amended: when the regions that share a bounding-box origin
    carry the same text (in particular when the origins are pairwise
    distinct), every permutation of the collection gives the same text
    block, and that block is the newline-joined texts of the regions
    ordered by descending origin y, then ascending origin x. *)
Theorem reconstruct_permutation_invariant (rs rs' : list Observation) :
  Permutation rs rs' ->
  (forall a b, In a rs -> In b rs -> same_origin a b -> line_of a = line_of b) ->
  reconstruct rs = reconstruct rs'
  /\ exists sorted,
       Permutation rs sorted
       /\ StronglySorted reading_le sorted
       /\ reconstruct rs = join [NL] (somes (map line_of sorted)).
Proof.
  intros Hp Hties. split.
  - unfold reconstruct. do 2 f_equal.
    apply (list_sort_permutation_invariant obs_lt obs_lt_asym obs_le_trans);
      [exact Hp|].
    intros a b Ha Hb He. apply Hties; try assumption.
    now apply equiv_obs_same_origin.
  - exists (list_sort obs_lt rs). split; [apply list_sort_perm|].
    split; [|reflexivity].
    apply (StronglySorted_weaken (le obs_lt)).
    + intros a b. apply le_obs_reading.
    + apply list_sort_sorted; [exact obs_lt_asym | exact obs_le_trans].
Qed.

Lemma reconstruct_permutation_invariant_witness :
  reconstruct [obs 0.5 0.2 "c"; obs 0.1 0.9 "a"; obs 0.6 0.9 "b"]
  = reconstruct [obs 0.6 0.9 "b"; obs 0.5 0.2 "c"; obs 0.1 0.9 "a"].
Proof.
  apply (reconstruct_permutation_invariant
           [obs 0.5 0.2 "c"; obs 0.1 0.9 "a"; obs 0.6 0.9 "b"]
           [obs 0.6 0.9 "b"; obs 0.5 0.2 "c"; obs 0.1 0.9 "a"]).
  - apply Permutation_sym. apply (Permutation_cons_app [_; _] []). reflexivity.
  - intros a b Ha Hb [Hx _]. simpl in Ha, Hb.
    repeat (destruct Ha as [<-|Ha]; [|]); try contradiction;
      repeat (destruct Hb as [<-|Hb]; [|]); try contradiction;
      try reflexivity; vm_compute in Hx; discriminate.
Defined.

(** ** The engine *)

Lemma flat_map_nil {X Y} (f : X -> list Y) l :
  (forall x, In x l -> f x = []) -> flat_map f l = [].
Proof.
  induction l as [|x l IH]; simpl; intros H; [reflexivity|].
  rewrite (H x) by now left. apply IH. intros y Hy. apply H. now right.
Qed.

Lemma flat_map_map {X Y Z} (f : Y -> list Z) (h : X -> Y) l :
  flat_map f (map h l) = flat_map (fun x => f (h x)) l.
Proof. induction l as [|x l IH]; simpl; [reflexivity | now rewrite IH]. Qed.

Lemma map_flat_map {X Y Z} (h : Y -> Z) (f : X -> list Y) l :
  map h (flat_map f l) = flat_map (fun x => map h (f x)) l.
Proof.
  induction l as [|x l IH]; simpl; [reflexivity|].
  now rewrite List.map_app, IH.
Qed.

Lemma flat_map_ext_in {X Y} (f f' : X -> list Y) l :
  (forall x, In x l -> f x = f' x) -> flat_map f l = flat_map f' l.
Proof.
  induction l as [|x l IH]; simpl; intros H; [reflexivity|].
  rewrite (H x) by now left. f_equal. apply IH. intros y Hy. apply H. now right.
Qed.

Section EngineFacts.
Variable is_word : char -> bool.
Local Abbreviation matches := (matches is_word).

(** Results are ends of the text. *)
Lemma star_from_length body n :
  (forall pw s p rest, In (p, rest) (body pw s) -> length rest <= length s) ->
  forall pw s p rest,
    In (p, rest) (star_from body n pw s) -> length rest <= length s.
Proof.
  intros Hbody. induction n as [|n IH]; simpl; intros pw s p rest Hin.
  - destruct Hin as [[= <- <-]|[]]. lia.
  - apply in_app_or in Hin. destruct Hin as [Hin|[[= <- <-]|[]]]; [|lia].
    apply in_flat_map in Hin. destruct Hin as [[pw' s'] [H1 H2]].
    destruct (Nat.ltb_spec (length s') (length s)); [|contradiction].
    apply IH in H2. lia.
Qed.

Lemma matches_length r :
  forall pw s p rest,
    In (p, rest) (matches r pw s) -> length rest + minlen r <= length s.
Proof.
  induction r as [|f| |a IHa b IHb|a IHa b IHb|a IHa]; simpl;
    intros pw s p rest Hin.
  - destruct Hin as [[= <- <-]|[]]. lia.
  - destruct s as [|c s']; [contradiction|].
    destruct (f c); [|contradiction].
    destruct Hin as [[= <- <-]|[]]. simpl. lia.
  - destruct (at_boundary is_word pw s); [|contradiction].
    destruct Hin as [[= <- <-]|[]]. lia.
  - apply in_flat_map in Hin. destruct Hin as [[pw' s'] [H1 H2]].
    apply IHa in H1. apply IHb in H2. lia.
  - apply in_app_or in Hin. destruct Hin as [H|H]; [apply IHa in H|apply IHb in H]; lia.
  - rewrite Nat.add_0_r. revert Hin. apply star_from_length.
    intros pw0 s0 p0 rest0 H. apply IHa in H. lia.
Qed.

(** More fuel than the length of the text changes nothing. *)
Lemma star_from_fuel body n1 :
  forall n2 pw s, length s <= n1 -> length s <= n2 ->
    star_from body n1 pw s = star_from body n2 pw s.
Proof.
  induction n1 as [|n1 IH]; intros [|n2] pw s H1 H2; simpl; try reflexivity.
  - rewrite flat_map_nil; [reflexivity|]. intros [pw' s'] _.
    destruct (Nat.ltb_spec (length s') (length s)); [lia|reflexivity].
  - rewrite flat_map_nil; [reflexivity|]. intros [pw' s'] _.
    destruct (Nat.ltb_spec (length s') (length s)); [lia|reflexivity].
  - f_equal. apply flat_map_ext_in. intros [pw' s'] _.
    destruct (Nat.ltb_spec (length s') (length s)); [|reflexivity].
    apply IH; lia.
Qed.

(** A character [w] that no class accepts and that is not a word
    character ends every match: matching in [a ++ w :: b] is matching
    in [a]. *)
Section Cut.
Variables (w : char) (b : str).
Hypothesis w_not_word : is_word w = false.

Lemma at_boundary_cut pw a :
  at_boundary is_word pw (a ++ w :: b) = at_boundary is_word pw a.
Proof.
  unfold at_boundary. destruct a; simpl; [now rewrite w_not_word|reflexivity].
Qed.

Lemma star_from_cut body :
  (forall pw s p rest, In (p, rest) (body pw s) -> length rest <= length s) ->
  (forall pw a, body pw (a ++ w :: b) = map (push (w :: b)) (body pw a)) ->
  forall n pw a, length a <= n ->
    star_from body (n + S (length b)) pw (a ++ w :: b)
    = map (push (w :: b)) (star_from body n pw a).
Proof.
  intros Hlen Hbody. induction n as [|n IH]; intros pw a Ha.
  - destruct a; [|simpl in Ha; lia].
    change (0 + S (length b)) with (S (length b)). cbn [star_from].
    rewrite (Hbody pw []), flat_map_map. simpl.
    rewrite flat_map_nil; [reflexivity|]. intros [pw' s'] Hin.
    apply Hlen in Hin. simpl in Hin. destruct s'; [|simpl in Hin; lia].
    simpl. now rewrite Nat.ltb_irrefl.
  - change (S n + S (length b)) with (S (n + S (length b))). cbn [star_from].
    rewrite List.map_app, Hbody, flat_map_map, map_flat_map. simpl.
    f_equal. apply flat_map_ext_in. intros [pw' s'] Hin. simpl.
    rewrite !List.length_app. simpl.
    destruct (Nat.ltb_spec (length s') (length a));
      destruct (Nat.ltb_spec (length s' + S (length b)) (length a + S (length b)));
      try lia; [|reflexivity].
    apply IH. lia.
Qed.

Lemma matches_cut r :
  rejects w r = true ->
  forall pw a, matches r pw (a ++ w :: b) = map (push (w :: b)) (matches r pw a).
Proof.
  induction r as [|f| |r1 IH1 r2 IH2|r1 IH1 r2 IH2|r IH]; simpl; intros Hr pw a.
  - reflexivity.
  - apply negb_true_iff in Hr. destruct a as [|c a]; simpl.
    + now rewrite Hr.
    + now destruct (f c).
  - rewrite at_boundary_cut. now destruct (at_boundary is_word pw a).
  - apply andb_true_iff in Hr. destruct Hr as [Hr1 Hr2].
    rewrite (IH1 Hr1), flat_map_map, map_flat_map.
    apply flat_map_ext_in. intros [pw' s'] _. simpl. now apply IH2.
  - apply andb_true_iff in Hr. destruct Hr as [Hr1 Hr2].
    now rewrite List.map_app, (IH1 Hr1), (IH2 Hr2).
  - rewrite <- (star_from_cut (matches r)) with (n := length a).
    + apply star_from_fuel; rewrite List.length_app; simpl; lia.
    + intros pw0 s0 p0 rest0 H. apply matches_length in H. lia.
    + intros. now apply IH.
    + lia.
Qed.

Lemma match_at_cut r pw a :
  rejects w r = true ->
  match_at is_word r pw (a ++ w :: b) = match_at is_word r pw a.
Proof.
  intros Hr. unfold match_at. rewrite (matches_cut r Hr).
  destruct (matches r pw a) as [|[p rest] l]; [reflexivity|]. simpl.
  rewrite !List.length_app. simpl. f_equal. lia.
Qed.

Lemma match_at_le r pw s len :
  match_at is_word r pw s = Some len -> minlen r <= len <= length s.
Proof.
  unfold match_at. destruct (matches r pw s) as [|[p rest] l] eqn:E; [discriminate|].
  intros [= <-].
  assert (In (p, rest) (matches r pw s)) as H by (rewrite E; now left).
  apply matches_length in H. lia.
Qed.

Lemma match_at_short r pw s :
  length s < minlen r -> match_at is_word r pw s = None.
Proof.
  intros H. destruct (match_at is_word r pw s) as [len|] eqn:E; [|reflexivity].
  apply match_at_le in E. lia.
Qed.

(** [finditer] works on both sides of [w] separately. *)
Lemma finditer_from_cut r :
  rejects w r = true -> 0 < minlen r ->
  forall a pw skip, skip <= length a ->
    finditer_from is_word r pw skip (a ++ w :: b)
    = finditer_from is_word r pw skip a ++ finditer_from is_word r false 0 b.
Proof.
  intros Hr Hmin. induction a as [|c a IH]; intros pw skip Hskip.
  - simpl in Hskip. assert (skip = 0) as -> by lia. simpl.
    pose proof (match_at_cut r pw [] Hr) as Hc. simpl in Hc.
    rewrite Hc, match_at_short by (simpl; lia).
    now rewrite w_not_word.
  - simpl in *. destruct skip as [|n].
    + change (c :: a ++ w :: b) with ((c :: a) ++ w :: b).
      rewrite (match_at_cut r pw (c :: a) Hr).
      destruct (match_at is_word r pw (c :: a)) as [len|] eqn:E.
      * apply match_at_le in E. simpl in E.
        destruct len as [|len]; [lia|]. simpl.
        rewrite Nat.sub_0_r, IH by lia. f_equal.
        rewrite List.firstn_app.
        replace (len - length a) with 0 by lia. simpl. now rewrite List.app_nil_r.
      * apply IH. lia.
    + apply IH. lia.
Qed.
End Cut.

End EngineFacts.

(** Results are suffixes of the text. *)
Lemma star_from_suffix (body : bool -> str -> list (bool * str)) n :
  (forall pw s p rest, In (p, rest) (body pw s) -> exists pre, s = pre ++ rest) ->
  forall pw s p rest,
    In (p, rest) (star_from body n pw s) -> exists pre, s = pre ++ rest.
Proof.
  intros Hbody. induction n as [|n IH]; simpl; intros pw s p rest Hin.
  - destruct Hin as [[= <- <-]|[]]. now exists [].
  - apply in_app_or in Hin.
    destruct Hin as [Hin|[[= <- <-]|[]]]; [|now exists []].
    apply in_flat_map in Hin. destruct Hin as [[pw' s'] [H1 H2]].
    destruct (length s' <? length s)%nat; [|contradiction].
    apply Hbody in H1. destruct H1 as [pre1 ->].
    apply IH in H2. destruct H2 as [pre2 ->].
    exists (pre1 ++ pre2). now rewrite <- List.app_assoc.
Qed.

Lemma matches_suffix is_word r :
  forall pw s p rest,
    In (p, rest) (matches is_word r pw s) -> exists pre, s = pre ++ rest.
Proof.
  induction r as [|f| |a IHa b IHb|a IHa b IHb|a IHa]; simpl;
    intros pw s p rest Hin.
  - destruct Hin as [[= <- <-]|[]]. now exists [].
  - destruct s as [|c s']; [contradiction|].
    destruct (f c); [|contradiction].
    destruct Hin as [[= <- <-]|[]]. now exists [c].
  - destruct (at_boundary is_word pw s); [|contradiction].
    destruct Hin as [[= <- <-]|[]]. now exists [].
  - apply in_flat_map in Hin. destruct Hin as [[pw' s'] [H1 H2]].
    apply IHa in H1. destruct H1 as [pre1 ->].
    apply IHb in H2. destruct H2 as [pre2 ->].
    exists (pre1 ++ pre2). now rewrite <- List.app_assoc.
  - apply in_app_or in Hin. destruct Hin as [H|H]; eauto.
  - revert Hin. now apply star_from_suffix.
Qed.

(** The engine consults the word table at the characters of the text
    only: two tables that agree there give the same matches. *)
Section TableAgreement.
Variables tbl tbl' : char -> bool.

Local Abbreviation agree := (agree tbl tbl').

Lemma agree_suffix pre rest : agree (pre ++ rest) -> agree rest.
Proof. unfold agree. rewrite List.Forall_app. tauto. Qed.

Lemma at_boundary_agree pw s :
  agree s -> at_boundary tbl pw s = at_boundary tbl' pw s.
Proof.
  unfold at_boundary. intros H. destruct H as [|c s Hc _]; [reflexivity|].
  now rewrite Hc.
Qed.

Lemma star_from_agree (body body' : bool -> str -> list (bool * str)) n :
  (forall pw s p rest, In (p, rest) (body pw s) -> exists pre, s = pre ++ rest) ->
  (forall pw s, agree s -> body pw s = body' pw s) ->
  forall pw s, agree s -> star_from body n pw s = star_from body' n pw s.
Proof.
  intros Hsuf Hbody. induction n as [|n IH]; simpl; intros pw s Hs; [reflexivity|].
  rewrite <- (Hbody pw s Hs). f_equal.
  apply flat_map_ext_in. intros [pw' s'] Hin.
  destruct (length s' <? length s)%nat; [|reflexivity].
  apply IH. apply Hsuf in Hin. destruct Hin as [pre ->].
  now apply agree_suffix in Hs.
Qed.

Lemma matches_agree r :
  forall pw s, agree s -> matches tbl r pw s = matches tbl' r pw s.
Proof.
  induction r as [|f| |a IHa b IHb|a IHa b IHb|a IHa]; simpl; intros pw s Hs.
  - reflexivity.
  - destruct Hs as [|c s Hc _]; [reflexivity|]. now rewrite Hc.
  - now rewrite (at_boundary_agree pw s Hs).
  - rewrite <- (IHa pw s Hs). apply flat_map_ext_in. intros [pw' s'] Hin.
    apply IHb. apply matches_suffix in Hin. destruct Hin as [pre ->].
    now apply agree_suffix in Hs.
  - now rewrite (IHa pw s Hs), (IHb pw s Hs).
  - apply star_from_agree; [apply matches_suffix|exact IHa|exact Hs].
Qed.

Lemma finditer_from_agree r :
  forall s pw skip, agree s ->
    finditer_from tbl r pw skip s = finditer_from tbl' r pw skip s.
Proof.
  induction s as [|c s IH]; simpl; intros pw skip Hs; [reflexivity|].
  pose proof (matches_agree r pw (c :: s) Hs) as Hm.
  inversion Hs as [|? ? Hc Hs']; subst.
  unfold match_at. rewrite Hm, Hc.
  destruct skip; [|now apply IH].
  destruct (matches tbl' r pw (c :: s)) as [|[p rest] l]; now rewrite IH.
Qed.
End TableAgreement.

(** ** The URL extractor *)

Lemma is_ascii_check s :
  forallb (fun c => c <? 128)%N s = true -> is_ascii s.
Proof.
  intros H. apply List.Forall_forall. intros c Hc.
  rewrite forallb_forall in H. apply N.ltb_lt. now apply H.
Qed.

Lemma finditer_ascii tbl r text :
  word_table_ok tbl -> is_ascii text ->
  finditer tbl r text = finditer ascii_word r text.
Proof.
  intros [Hw _] Ht. apply finditer_from_agree.
  eapply List.Forall_impl; [|exact Ht]. intros c. apply Hw.
Qed.

(** On ASCII text the extractor is the one of the ASCII table. *)
Lemma extract_urls_ascii tbl text :
  word_table_ok tbl -> is_ascii text ->
  extract_urls tbl text = extract_urls ascii_word text.
Proof.
  intros Hw Ht. unfold extract_urls. now rewrite (finditer_ascii tbl).
Qed.

Ltac bools H :=
  repeat first [ rewrite orb_true_iff in H | rewrite andb_true_iff in H
               | rewrite N.leb_le in H | rewrite N.eqb_eq in H ].

Lemma word_table_ok_ascii : word_table_ok ascii_word.
Proof.
  split; [reflexivity|]. intros c Hc.
  destruct (ascii_word c) eqn:E; [|reflexivity]. exfalso.
  unfold is_space in Hc. unfold ascii_word in E.
  bools Hc. bools E. lia.
Qed.

(** No class of [URL_REGEX] accepts white space. *)
Lemma rejects_space_URL w : is_space w = true -> rejects w URL_REGEX = true.
Proof.
  intros Hw. unfold URL_REGEX, url_char, url_char_paren, icase, chr, plus, opt, seq.
  cbn -[N.eqb N.sub is_space]. rewrite Hw. cbn -[N.eqb N.sub].
  repeat match goal with
         | |- context [if (?a =? ?b)%N then _ else _] =>
             let v := eval vm_compute in (a =? b)%N in
             change (a =? b)%N with v; cbn iota
         end.
  cbn -[N.eqb N.sub].
  repeat match goal with
         | |- context [(w =? ?b)%N] =>
             destruct (N.eqb_spec w b); [subst w; vm_compute in Hw; discriminate|]
         | |- context [(?b =? w)%N] =>
             destruct (N.eqb_spec b w); [subst w; vm_compute in Hw; discriminate|]
         end.
  reflexivity.
Qed.

Lemma minlen_URL : minlen URL_REGEX = 5.
Proof. reflexivity. Qed.

(** White space separates the work of the extractor. *)
Lemma extract_urls_cut tbl a w b :
  word_table_ok tbl -> is_space w = true ->
  extract_urls tbl (a ++ w :: b) = extract_urls tbl a ++ extract_urls tbl b.
Proof.
  intros [_ Hs] Hw. unfold extract_urls, finditer.
  rewrite finditer_from_cut.
  - apply List.map_app.
  - now apply Hs.
  - now apply rejects_space_URL.
  - rewrite minlen_URL. lia.
  - lia.
Qed.

Lemma extract_urls_nil tbl : extract_urls tbl [] = [].
Proof. reflexivity. Qed.

Lemma extract_urls_delimited_left tbl pre rest :
  word_table_ok tbl -> delimited_left pre ->
  extract_urls tbl (pre ++ rest) = extract_urls tbl pre ++ extract_urls tbl rest.
Proof.
  intros Hw [->|[pre' [w [-> Hs]]]]; [reflexivity|].
  rewrite <- List.app_assoc. simpl.
  rewrite !(extract_urls_cut tbl pre' w) by assumption.
  now rewrite extract_urls_nil, List.app_nil_r.
Qed.

Lemma extract_urls_delimited_right tbl token post :
  word_table_ok tbl -> delimited_right post ->
  extract_urls tbl (token ++ post)
  = extract_urls tbl token ++ extract_urls tbl post.
Proof.
  intros Hw [->|[w [post' [-> Hs]]]].
  - now rewrite extract_urls_nil, !List.app_nil_r.
  - rewrite (extract_urls_cut tbl token w) by assumption.
    change (w :: post') with ([] ++ w :: post').
    now rewrite (extract_urls_cut tbl [] w) by assumption.
Qed.

(** A token between white space is extracted on its own. *)
Lemma extract_urls_token tbl pre token post :
  word_table_ok tbl -> delimited_left pre -> delimited_right post ->
  extract_urls tbl (pre ++ token ++ post)
  = extract_urls tbl pre ++ extract_urls tbl token ++ extract_urls tbl post.
Proof.
  intros Hw Hl Hr.
  now rewrite extract_urls_delimited_left, extract_urls_delimited_right.
Qed.

Ltac ascii_text := apply is_ascii_check; vm_compute; reflexivity.

(** C2: in any text, the token
    [http://example.com/path(seg1)(seg2)more.] between white space (or
    the ends of the text) is emitted as
    [http://example.com/path(seg1)(seg2)more]: the final period is
    stripped and the parenthesized segments are kept; the rest of the
    text is extracted as it would be alone. *)
Theorem extract_urls_paren_segments tbl pre post :
  word_table_ok tbl -> delimited_left pre -> delimited_right post ->
  extract_urls tbl
    (pre ++ lit "http://example.com/path(seg1)(seg2)more." ++ post)
  = extract_urls tbl pre
    ++ [lit "http://example.com/path(seg1)(seg2)more"]
    ++ extract_urls tbl post.
Proof.
  intros Hw Hl Hr. rewrite extract_urls_token by assumption.
  do 2 f_equal. rewrite extract_urls_ascii; [|exact Hw|ascii_text].
  vm_compute. reflexivity.
Qed.

Lemma extract_urls_paren_segments_witness :
  extract_urls ascii_word
    (lit "Check " ++ lit "http://example.com/path(seg1)(seg2)more." ++ [])
  = extract_urls ascii_word (lit "Check ")
    ++ [lit "http://example.com/path(seg1)(seg2)more"]
    ++ extract_urls ascii_word [].
Proof.
  apply (extract_urls_paren_segments ascii_word (lit "Check ") []).
  - exact word_table_ok_ascii.
  - right. exists (lit "Check"), 32%N. split; reflexivity.
  - left. reflexivity.
Defined.

Example extract_urls_check :
  extract_urls ascii_word (lit "Check http://example.com/path(seg1)(seg2)more.")
  = [lit "http://example.com/path(seg1)(seg2)more"].
Proof. vm_compute. reflexivity. Qed.

(** C3: the scheme is added to a match that begins with [www.] in
    lower case only.  [URL_REGEX] is compiled with [(?i)] and matches
    [WWW.example.org], which is emitted as it is, without a scheme;
    [www.example.org,] gives [http://www.example.org]. *)
Theorem extract_urls_uppercase_www tbl :
  word_table_ok tbl ->
  extract_urls tbl (lit "WWW.example.org") = [lit "WWW.example.org"]
  /\ startswith (lit "WWW.example.org") (lit "http://") = false
  /\ startswith (lit "WWW.example.org") (lit "https://") = false
  /\ extract_urls tbl (lit "www.example.org,") = [lit "http://www.example.org"].
Proof.
  intros Hw. repeat split.
  - rewrite extract_urls_ascii; [|exact Hw|ascii_text]. vm_compute. reflexivity.
  - rewrite extract_urls_ascii; [|exact Hw|ascii_text]. vm_compute. reflexivity.
Qed.

Example extract_urls_www_dots :
  extract_urls ascii_word (lit "see www.., ok") = [lit "www"].
Proof. vm_compute. reflexivity. Qed.

Lemma extract_urls_uppercase_www_witness :
  extract_urls ascii_word (lit "WWW.example.org") = [lit "WWW.example.org"].
Proof.
  apply (extract_urls_uppercase_www ascii_word). exact word_table_ok_ascii.
Defined.

(** What [rstrip] leaves does not end with a stripped character. *)
Lemma lstrip_by_head f s c r : lstrip_by f s = c :: r -> f c = false.
Proof.
  induction s as [|x s IH]; simpl; [discriminate|].
  destruct (f x) eqn:E; [exact IH|]. now intros [= <- _].
Qed.

Lemma rstrip_by_last f s v c : rstrip_by f s = v ++ [c] -> f c = false.
Proof.
  unfold rstrip_by. intros H.
  apply (f_equal (@rev _)) in H. rewrite List.rev_involutive, List.rev_app_distr in H.
  simpl in H. now apply lstrip_by_head in H.
Qed.

Lemma normalize_url_last m v c :
  normalize_url m = v ++ [c] -> mem c (lit ".,;:!)?]") = false.
Proof.
  unfold normalize_url, rstrip.
  set (u := rstrip_by _ m). intros H.
  assert (exists v', u = v' ++ [c]) as [v' Hv'].
  { destruct (startswith u (lit "www.")) eqn:E; [|now exists v].
    destruct (List.exists_last (l := u)) as [v' [c' Hu]].
    - intros ->. discriminate E.
    - rewrite Hu, !List.app_assoc in H.
      apply List.app_inj_tail in H. destruct H as [_ ->]. now exists v'. }
  subst u. now apply rstrip_by_last in Hv'.
Qed.

(** C10: the closing parenthesis of a balanced pair, when it ends the
    match, is stripped: in any text that ends with the token
    [http://example.com/a(b)] the extractor emits
    [http://example.com/a(b] for it; and no URL that the extractor
    emits ends with a closing parenthesis (nor with another character
    of the strip set), whatever the text. *)
Theorem extract_urls_strips_closing_paren tbl pre :
  word_table_ok tbl -> delimited_left pre ->
  extract_urls tbl (pre ++ lit "http://example.com/a(b)")
  = extract_urls tbl pre ++ [lit "http://example.com/a(b"]
  /\ forall text u v c,
       In u (extract_urls tbl text) -> u = v ++ [c] ->
       mem c (lit ".,;:!)?]") = false.
Proof.
  intros Hw Hl. split.
  - rewrite extract_urls_delimited_left by assumption. f_equal.
    rewrite extract_urls_ascii; [|exact Hw|ascii_text]. vm_compute. reflexivity.
  - intros text u v c Hin ->. unfold extract_urls in Hin.
    apply in_map_iff in Hin. destruct Hin as [m [Hm _]].
    now apply normalize_url_last in Hm.
Qed.

Lemma extract_urls_strips_closing_paren_witness :
  extract_urls ascii_word (lit "see " ++ lit "http://example.com/a(b)")
  = extract_urls ascii_word (lit "see ") ++ [lit "http://example.com/a(b"].
Proof.
  apply (extract_urls_strips_closing_paren ascii_word (lit "see ")).
  - exact word_table_ok_ascii.
  - right. exists (lit "see"), 32%N. split; reflexivity.
Defined.

(** ** Strings *)

Lemma str_eqb_eq a b : str_eqb a b = true <-> a = b.
Proof.
  revert b. induction a as [|x a IH]; intros [|y b]; simpl;
    try (split; [discriminate|discriminate]); [tauto|].
  rewrite andb_true_iff, N.eqb_eq, IH. split.
  - now intros [-> ->].
  - now intros [= -> ->].
Qed.

Lemma str_eqb_refl a : str_eqb a a = true.
Proof. now apply str_eqb_eq. Qed.

Lemma str_eqb_sym a b : str_eqb a b = str_eqb b a.
Proof.
  destruct (str_eqb a b) eqn:E1, (str_eqb b a) eqn:E2; try reflexivity.
  - apply str_eqb_eq in E1. subst. now rewrite str_eqb_refl in E2.
  - apply str_eqb_eq in E2. subst. now rewrite str_eqb_refl in E1.
Qed.

Lemma mem_str_In u l : mem_str u l = true <-> In u l.
Proof.
  unfold mem_str. rewrite existsb_exists. split.
  - intros [v [Hv He]]. apply str_eqb_eq in He. now subst.
  - intros H. exists u. split; [exact H|apply str_eqb_refl].
Qed.

(** ** Deduplication (C4) *)

Lemma filter_filter {X} (f g : X -> bool) l :
  List.filter f (List.filter g l) = List.filter (fun x => g x && f x) l.
Proof.
  induction l as [|x l IH]; simpl; [reflexivity|].
  destruct (g x); simpl; [destruct (f x)|]; now rewrite IH.
Qed.

Lemma filter_ext_all {X} (f g : X -> bool) l :
  (forall x, f x = g x) -> List.filter f l = List.filter g l.
Proof. intros H. apply List.filter_ext. exact H. Qed.

Lemma first_seen_In l u : In u (first_seen l) <-> In u l.
Proof.
  induction l as [|v l IH]; simpl; [tauto|].
  pose proof (List.filter_In (fun v0 => negb (str_eqb v0 v)) u (first_seen l)) as F.
  rewrite negb_true_iff in F.
  destruct (str_eqb u v) eqn:E.
  - apply str_eqb_eq in E. subst. intuition congruence.
  - intuition.
Qed.

Lemma first_seen_NoDup l : List.NoDup (first_seen l).
Proof.
  induction l as [|v l IH]; simpl; constructor.
  - rewrite List.filter_In, str_eqb_refl. intros [_ H]. discriminate.
  - now apply List.NoDup_filter.
Qed.

(** First-seen order: what the earlier part of the list brings comes
    first, and the later part only adds what is new. *)
Lemma first_seen_app l1 l2 :
  first_seen (l1 ++ l2)
  = first_seen l1 ++ List.filter (fun u => negb (mem_str u l1)) (first_seen l2).
Proof.
  induction l1 as [|v l1 IH]; simpl.
  - symmetry. apply List.forallb_filter_id. now apply forallb_forall.
  - f_equal. rewrite IH, List.filter_app, filter_filter. f_equal.
    apply filter_ext_all. intros x. now rewrite negb_orb, andb_comm.
Qed.

Lemma dedup_fold l :
  forall (seen : gset (list N)) acc,
    (forall u, u ∈ seen <-> In u acc) ->
    snd (fold_left dedup_step l (seen, acc))
    = acc ++ List.filter (fun u => negb (mem_str u acc)) (first_seen (map snd l)).
Proof.
  induction l as [|[f u] l IH]; simpl; intros seen acc Hinv.
  - now rewrite List.app_nil_r.
  - unfold dedup_step at 2. simpl. case_bool_decide as Hu.
    + apply Hinv in Hu. rewrite (IH seen acc Hinv).
      apply mem_str_In in Hu. rewrite Hu. simpl. f_equal.
      rewrite filter_filter. apply filter_ext_all. intros x.
      destruct (str_eqb x u) eqn:E; [|reflexivity].
      apply str_eqb_eq in E. subst. now rewrite Hu.
    + assert (mem_str u acc = false) as Hm.
      { destruct (mem_str u acc) eqn:E; [|reflexivity].
        apply mem_str_In, Hinv in E. contradiction. }
      rewrite Hm. simpl. rewrite IH.
      * rewrite <- List.app_assoc. simpl. do 2 f_equal.
        rewrite filter_filter. apply filter_ext_all. intros x.
        unfold mem_str. rewrite List.existsb_app. simpl.
        rewrite orb_false_r, negb_orb. apply andb_comm.
      * intros v. rewrite List.in_app_iff. simpl.
        rewrite elem_of_union, elem_of_singleton, Hinv. intuition.
Qed.

(** The loop of [run] computes the first-seen list. *)
Lemma dedup_urls_first_seen occs :
  dedup_urls occs = first_seen (map snd occs).
Proof.
  unfold dedup_urls. rewrite (dedup_fold occs ∅ []).
  - simpl. apply List.forallb_filter_id. now apply forallb_forall.
  - intros u. simpl. split; [|tauto]. apply not_elem_of_empty.
Qed.

Lemma join_lines l :
  join [NL] l ++ match l with [] => [] | _ :: _ => [NL] end
  = flat_map (fun u => u ++ [NL]) l.
Proof.
  induction l as [|x l IH]; [reflexivity|].
  destruct l as [|y l]; [simpl; now rewrite List.app_nil_r|].
  change (join [NL] (x :: y :: l)) with (x ++ [NL] ++ join [NL] (y :: l)).
  rewrite <- !List.app_assoc. rewrite IH.
  change (flat_map (fun u => u ++ [NL]) (x :: y :: l))
    with ((x ++ [NL]) ++ flat_map (fun u => u ++ [NL]) (y :: l)).
  now rewrite <- List.app_assoc.
Qed.

(** ** The loop of [run] *)

Section RunFacts.
Variable is_word : char -> bool.
Variable str_lower : str -> str.
Variable env : Env.

Lemma fold_process_image langs txt_dir imgs :
  forall acc,
    fold_left (process_image is_word env langs txt_dir) imgs acc
    = {| all_sections :=
           all_sections acc ++ map (image_section is_word env langs) imgs;
         all_urls :=
           all_urls acc ++ flat_map (image_occurrences is_word env langs) imgs;
         log := log acc ++ flat_map (image_log is_word env langs txt_dir) imgs |}.
Proof.
  induction imgs as [|p imgs IH]; intros [secs occs lg]; simpl.
  - now rewrite !List.app_nil_r.
  - rewrite IH. simpl. now rewrite <- !List.app_assoc.
Qed.

Lemma writes_app l1 l2 : writes (l1 ++ l2) = writes l1 ++ writes l2.
Proof. apply List.flat_map_app. Qed.

Lemma stdout_app l1 l2 : stdout (l1 ++ l2) = stdout l1 ++ stdout l2.
Proof. apply List.flat_map_app. Qed.

Lemma writes_image_logs langs txt_dir imgs :
  writes (flat_map (image_log is_word env langs txt_dir) imgs)
  = map (fun p => (txt_path_of txt_dir p, image_text env langs p)) imgs.
Proof.
  induction imgs as [|p imgs IH]; simpl; [reflexivity|].
  now rewrite <- IH.
Qed.

(** A run that finds images writes one text file per image, in the
    order of the images, and then the four aggregate files. *)
Lemma run_writes in_dir out_dir lang_str :
  list_images str_lower env in_dir <> [] ->
  writes (run is_word str_lower env in_dir out_dir lang_str)
  = map (fun p => (txt_path_of (path_join (expanduser env out_dir) (lit "txt")) p,
                   image_text env (parse_langs lang_str) p))
        (list_images str_lower env in_dir)
    ++ aggregate_writes (expanduser env out_dir)
         (map (image_section is_word env (parse_langs lang_str))
              (list_images str_lower env in_dir))
         (flat_map (image_occurrences is_word env (parse_langs lang_str))
                   (list_images str_lower env in_dir)).
Proof.
  intros Himgs. unfold run.
  destruct (list_images str_lower env in_dir) as [|p imgs] eqn:E;
    [contradiction|].
  rewrite fold_process_image. cbn [log all_sections all_urls].
  rewrite !writes_app, writes_image_logs. reflexivity.
Qed.
End RunFacts.

Lemma urls_txt_lines occs :
  urls_txt occs = flat_map (fun u => u ++ [NL]) (first_seen (map snd occs)).
Proof.
  unfold urls_txt. now rewrite join_lines, dedup_urls_first_seen.
Qed.

Lemma urls_csv_rows occs :
  urls_csv occs
  = csv_row [lit "file"; lit "url"]
    ++ flat_map (fun occ => csv_row [fst occ; snd occ]) occs.
Proof.
  unfold urls_csv, csv_file. simpl. f_equal.
  rewrite List.flat_map_concat_map, List.map_map. reflexivity.
Qed.

Lemma str_eqb_neq a b : a <> b -> str_eqb a b = false.
Proof.
  intros H. destruct (str_eqb a b) eqn:E; [|reflexivity].
  now apply str_eqb_eq in E.
Qed.

(** C4: in a run that finds images, the last two files written are
    [urls.txt], which holds the distinct URLs of all occurrences in
    first-seen order, one per line, and [urls.csv], which holds the
    header and one row (source base name, URL) per occurrence, all of
    them, in processing order.  The first-seen list has no duplicate,
    has exactly the URLs that occur, and what earlier occurrences
    bring precedes what later ones add.  Occurrences [a, b, a, c, b]
    give the lines [a, b, c] and five rows in the original order. *)
Theorem run_url_files is_word str_lower env in_dir out_dir lang_str :
  let imgs := list_images str_lower env in_dir in
  let occs :=
    flat_map (image_occurrences is_word env (parse_langs lang_str)) imgs in
  imgs <> [] ->
  (exists earlier,
     writes (run is_word str_lower env in_dir out_dir lang_str)
     = earlier ++
       [(path_join (expanduser env out_dir) (lit "urls.txt"),
         flat_map (fun u => u ++ [NL]) (first_seen (map snd occs)));
        (path_join (expanduser env out_dir) (lit "urls.csv"),
         csv_row [lit "file"; lit "url"]
         ++ flat_map (fun occ => csv_row [fst occ; snd occ]) occs)])
  /\ List.NoDup (first_seen (map snd occs))
  /\ (forall u, In u (first_seen (map snd occs)) <-> In u (map snd occs))
  /\ (forall o1 o2, occs = o1 ++ o2 ->
        first_seen (map snd occs)
        = first_seen (map snd o1)
          ++ List.filter (fun u => negb (mem_str u (map snd o1)))
                         (first_seen (map snd o2)))
  /\ (forall a b c f1 f2 f3 f4 f5, a <> b -> a <> c -> b <> c ->
        urls_txt [(f1, a); (f2, b); (f3, a); (f4, c); (f5, b)]
        = a ++ [NL] ++ b ++ [NL] ++ c ++ [NL]
        /\ urls_csv [(f1, a); (f2, b); (f3, a); (f4, c); (f5, b)]
           = csv_row [lit "file"; lit "url"]
             ++ csv_row [f1; a] ++ csv_row [f2; b] ++ csv_row [f3; a]
             ++ csv_row [f4; c] ++ csv_row [f5; b]).
Proof.
  intros imgs occs Himgs. repeat split.
  - rewrite (run_writes is_word str_lower env in_dir out_dir lang_str Himgs).
    unfold aggregate_writes. fold imgs. fold occs.
    rewrite urls_txt_lines, urls_csv_rows.
    eexists (_ ++ [_; _]). rewrite <- List.app_assoc. reflexivity.
  - apply first_seen_NoDup.
  - apply first_seen_In.
  - apply first_seen_In.
  - intros o1 o2 ->. now rewrite List.map_app, first_seen_app.
  - rewrite urls_txt_lines.
    assert (str_eqb a b = false) as Hab by (apply str_eqb_neq; congruence).
    assert (str_eqb b a = false) as Hba by (apply str_eqb_neq; congruence).
    assert (str_eqb a c = false) as Hac by (apply str_eqb_neq; congruence).
    assert (str_eqb c a = false) as Hca by (apply str_eqb_neq; congruence).
    assert (str_eqb b c = false) as Hbc by (apply str_eqb_neq; congruence).
    assert (str_eqb c b = false) as Hcb by (apply str_eqb_neq; congruence).
    simpl.
    repeat (rewrite ?Hab, ?Hba, ?Hac, ?Hca, ?Hbc, ?Hcb, ?str_eqb_refl; simpl).
    now rewrite <- !List.app_assoc.
  - rewrite urls_csv_rows. simpl. now rewrite List.app_nil_r.
Qed.

Lemma run_url_files_witness :
  List.NoDup (first_seen (map snd
    (flat_map (image_occurrences ascii_word demo_env (parse_langs (lit "en-US")))
              (list_images ascii_lower demo_env (lit "in"))))).
Proof.
  refine (proj1 (proj2
    (run_url_files ascii_word ascii_lower demo_env (lit "in") (lit "out")
                   (lit "en-US") _))).
  vm_compute. discriminate.
Defined.

Example demo_urls_txt :
  urls_txt (flat_map (image_occurrences ascii_word demo_env (parse_langs []))
                     (list_images ascii_lower demo_env (lit "in")))
  = lit "http://b.org" ++ [NL] ++ lit "http://www.a.org" ++ [NL].
Proof. vm_compute. reflexivity. Qed.

(** ** The order of strings *)

Lemma str_lt_asym a : forall b, str_lt a b = true -> str_lt b a = false.
Proof.
  induction a as [|x a IH]; intros [|y b]; simpl; try easy.
  destruct (N.ltb_spec x y), (N.ltb_spec y x); try easy; try lia.
  apply IH.
Qed.

Lemma str_le_trans a :
  forall b c, str_lt b a = false -> str_lt c b = false -> str_lt c a = false.
Proof.
  induction a as [|x a IH]; intros [|y b] [|z c]; simpl; try easy.
  destruct (N.ltb_spec y x), (N.ltb_spec x y), (N.ltb_spec z y),
    (N.ltb_spec y z), (N.ltb_spec z x), (N.ltb_spec x z);
    try easy; try lia.
  apply IH.
Qed.


(** ** Image discovery (C6) *)

Section Discovery.
Variable str_lower : str -> str.

Lemma path_lt_asym p q :
  path_lt str_lower p q = true -> path_lt str_lower q p = false.
Proof. apply str_lt_asym. Qed.

Lemma path_le_trans p q r :
  le (path_lt str_lower) p q -> le (path_lt str_lower) q r ->
  le (path_lt str_lower) p r.
Proof.
  unfold le, path_lt. intros H1 H2.
  exact (str_le_trans _ _ _ H1 H2).
Qed.

Lemma eligible_iff entry :
  eligible str_lower entry = true
  <-> is_file entry = true
      /\ startswith (name entry) (lit ".") = false
      /\ exists x,
           In x (map lit ["png"; "jpg"; "jpeg"; "tif"; "tiff"; "bmp"; "gif";
                          "heic"]%string)
           /\ str_lower (snd (splitext (name entry))) = DOT :: x.
Proof.
  unfold eligible, supported.
  rewrite !andb_true_iff, negb_true_iff, existsb_exists.
  split.
  - intros [[Hf Hh] [e [He Heq]]]. repeat split; try assumption.
    apply str_eqb_eq in Heq. rewrite Heq.
    simpl in He.
    repeat (destruct He as [<-|He];
            [eexists; split; [|reflexivity]; simpl; tauto|]).
    contradiction.
  - intros [Hf [Hh [x [Hx Heq]]]]. repeat split; try assumption.
    exists (DOT :: x). split; [|now apply str_eqb_eq].
    simpl in Hx.
    repeat (destruct Hx as [<-|Hx]; [simpl; tauto|]).
    contradiction.
Qed.
End Discovery.

(** C6: [list_images] returns exactly the entries of the directory
    that are regular files, whose name does not start with a dot and
    whose extension, in lower case, is one of the eight supported ones
    (each once, as a path in the directory), sorted by file name in
    lower case; for a path that is not a directory it returns the empty
    list. *)
Theorem list_images_spec str_lower env in_dir :
  let d := expanduser env in_dir in
  let found := list_images str_lower env in_dir in
  Permutation found
    (if isdir env d
     then map (fun entry => path_join d (name entry))
              (List.filter (eligible str_lower) (scandir env d))
     else [])
  /\ (forall entry,
        eligible str_lower entry = true
        <-> is_file entry = true
            /\ startswith (name entry) (lit ".") = false
            /\ exists x,
                 In x (map lit ["png"; "jpg"; "jpeg"; "tif"; "tiff"; "bmp";
                                "gif"; "heic"]%string)
                 /\ str_lower (snd (splitext (name entry))) = DOT :: x)
  /\ StronglySorted
       (fun p q =>
          str_lt (str_lower (basename q)) (str_lower (basename p)) = false)
       found
  /\ (isdir env d = false -> found = []).
Proof.
  intros d found. subst found. unfold list_images. fold d.
  split; [|split; [|split]].
  - destruct (isdir env d); simpl; [|reflexivity].
    apply Permutation_sym, list_sort_perm.
  - apply eligible_iff.
  - destruct (isdir env d); simpl; [|constructor].
    apply (list_sort_sorted (path_lt str_lower));
      [apply path_lt_asym | apply path_le_trans].
  - now intros ->.
Qed.

Example list_images_demo :
  list_images ascii_lower demo_env (lit "in")
  = [lit "in/corrupt.png"; lit "in/good1.png"; lit "in/good2.png"]
  /\ list_images ascii_lower demo_env (lit "elsewhere") = [].
Proof. vm_compute. split; reflexivity. Qed.

(** ** No image (C9) *)

(** C9: when the script is given its arguments and discovery finds no
    image (in particular when the input path is not a directory), all
    it does is create the output directory and print
    [No images found.]: nothing else is printed, no file is written,
    and the exit status is 0. *)
Theorem main_no_images is_word str_lower env argv :
  (3 <= length argv)%nat ->
  list_images str_lower env (expanduser env (nth 1 argv [])) = []
  \/ isdir env (expanduser env (expanduser env (nth 1 argv []))) = false ->
  main is_word str_lower env argv
  = ([Makedirs (expanduser env (expanduser env (nth 2 argv [])));
      Print (lit "No images found.")], 0%Z)
  /\ stdout (fst (main is_word str_lower env argv))
     = lit "No images found." ++ [NL]
  /\ writes (fst (main is_word str_lower env argv)) = []
  /\ snd (main is_word str_lower env argv) = 0%Z.
Proof.
  intros Hargs Hnone.
  assert (list_images str_lower env (expanduser env (nth 1 argv [])) = [])
    as Himgs.
  { destruct Hnone as [H|H]; [exact H|].
    unfold list_images. now rewrite H. }
  assert (main is_word str_lower env argv
          = ([Makedirs (expanduser env (expanduser env (nth 2 argv [])));
              Print (lit "No images found.")], 0%Z)) as Hmain.
  { unfold main. destruct (Nat.ltb_spec (length argv) 3); [lia|].
    unfold run. now rewrite Himgs. }
  rewrite Hmain. repeat split.
Qed.

Lemma main_no_images_witness :
  snd (main ascii_word ascii_lower demo_env
            [lit "app.py"; lit "elsewhere"; lit "out"]) = 0%Z.
Proof.
  refine (proj2 (proj2 (proj2
    (main_no_images ascii_word ascii_lower demo_env
       [lit "app.py"; lit "elsewhere"; lit "out"] _ _)))).
  - simpl. lia.
  - right. reflexivity.
Defined.

Example main_usage :
  main ascii_word ascii_lower demo_env [lit "app.py"; lit "in"]
  = ([Print USAGE], 1%Z).
Proof. reflexivity. Qed.

(** ** Paths *)

Lemma rfind_from_app c s t : forall i found,
  rfind_from i c (s ++ t) found
  = rfind_from (i + Z.of_nat (length s)) c t (rfind_from i c s found).
Proof.
  induction s as [|x s IH]; intros i found; simpl.
  - now rewrite Z.add_0_r.
  - rewrite IH. f_equal. lia.
Qed.

Lemma rfind_from_absent c t : mem c t = false ->
  forall i found, rfind_from i c t found = found.
Proof.
  induction t as [|x t IH]; simpl; intros H i found; [reflexivity|].
  apply orb_false_iff in H. destruct H as [Hx Ht].
  rewrite N.eqb_sym in Hx. rewrite Hx. now apply IH.
Qed.

Lemma basename_after_slash d n :
  mem SLASH n = false -> basename (d ++ SLASH :: n) = n.
Proof.
  intros Hn. unfold basename, rfind.
  change (d ++ SLASH :: n) with (d ++ [SLASH] ++ n).
  rewrite rfind_from_app, rfind_from_app, (rfind_from_absent _ _ Hn).
  simpl. rewrite ?N.eqb_refl.
  replace (Z.to_nat (0 + Z.of_nat (length d) + 1)) with (length d + 1) by lia.
  rewrite List.skipn_app, List.skipn_all2 by lia.
  replace (length d + 1 - length d) with 1 by lia. reflexivity.
Qed.

Lemma basename_no_slash n : mem SLASH n = false -> basename n = n.
Proof.
  intros Hn. unfold basename, rfind. now rewrite (rfind_from_absent _ _ Hn).
Qed.

(** The file name of an entry is the base name of its path. *)
Lemma basename_path_join d n :
  mem SLASH n = false -> basename (path_join d n) = n.
Proof.
  intros Hn. unfold path_join.
  destruct n as [|c n].
  - simpl. destruct (rev d) as [|x r] eqn:E; [reflexivity|].
    destruct (N.eqb_spec x SLASH) as [->|Hx].
    + rewrite List.app_nil_r.
      apply (f_equal (@rev _)) in E. rewrite List.rev_involutive in E.
      simpl in E. subst d. now apply basename_after_slash.
    + now apply basename_after_slash.
  - assert (startswith (c :: n) [SLASH] = false) as Hs.
    { simpl in *. apply orb_false_iff in Hn. destruct Hn as [Hc _].
      now rewrite Hc. }
    rewrite Hs. destruct (rev d) as [|x r] eqn:E.
    + now apply basename_no_slash.
    + destruct (N.eqb_spec x SLASH) as [->|Hx].
      * apply (f_equal (@rev _)) in E. rewrite List.rev_involutive in E.
        simpl in E. subst d. rewrite <- List.app_assoc. simpl.
        now apply basename_after_slash.
      * now apply basename_after_slash.
Qed.

(** ** Two runs (C8) *)

Lemma str_lt_antisym a :
  forall b, str_lt a b = false -> str_lt b a = false -> a = b.
Proof.
  induction a as [|x a IH]; intros [|y b]; simpl; try easy.
  destruct (N.ltb_spec x y), (N.ltb_spec y x); try easy.
  intros H1 H2. assert (x = y) as -> by lia. f_equal. now apply IH.
Qed.

Lemma Permutation_filter_bool {X} (f : X -> bool) l l' :
  Permutation l l' -> Permutation (List.filter f l) (List.filter f l').
Proof.
  induction 1 as [|x l l' Hp IH|x y l|l l' l'' _ IH1 _ IH2]; simpl.
  - constructor.
  - destruct (f x); [now constructor | exact IH].
  - destruct (f x), (f y); try reflexivity. apply perm_swap.
  - now rewrite IH1.
Qed.

Section TwoListings.
Variable str_lower : str -> str.
Variable env : Env.
Variables sc1 sc2 : str -> list DirEntry.

Lemma list_images_permutation in_dir :
  let d := expanduser env in_dir in
  Permutation (sc1 d) (sc2 d) ->
  (forall e, In e (sc1 d) -> mem SLASH (name e) = false) ->
  (forall e e', In e (sc1 d) -> In e' (sc1 d) ->
     eligible str_lower e = true -> eligible str_lower e' = true ->
     str_lower (name e) = str_lower (name e') -> name e = name e') ->
  list_images str_lower (with_scandir env sc1) in_dir
  = list_images str_lower (with_scandir env sc2) in_dir.
Proof.
  intros d Hp Hslash Hdistinct. unfold list_images. simpl. fold d.
  destruct (isdir env d); simpl; [|reflexivity].
  rewrite <- (List.map_id (list_sort _ (map _ (List.filter _ (sc1 d))))).
  rewrite <- (List.map_id (list_sort _ (map _ (List.filter _ (sc2 d))))).
  apply list_sort_permutation_invariant.
  - apply path_lt_asym.
  - apply path_le_trans.
  - apply Permutation_map. now apply Permutation_filter_bool.
  - intros p q Hp1 Hq1 [H1 H2].
    apply in_map_iff in Hp1. destruct Hp1 as [e [<- He]].
    apply in_map_iff in Hq1. destruct Hq1 as [e' [<- He']].
    apply List.filter_In in He. destruct He as [He Hel].
    apply List.filter_In in He'. destruct He' as [He' Hel'].
    unfold path_lt, sort_key in H1, H2.
    rewrite !basename_path_join in H1, H2 by now apply Hslash.
    f_equal. apply Hdistinct; try assumption.
    now apply str_lt_antisym.
Qed.
End TwoListings.

(** C8, as stated, fails when two images have names that differ in
    case only: the sort leaves them in the order of the directory
    listing, which is arbitrary, and two listings of the same directory
    give two different [all_text.md]. *)
Lemma two_listings_two_outputs :
  Permutation [file "A.png"; file "a.png"] [file "a.png"; file "A.png"]
  /\ file_content
       (run ascii_word ascii_lower (case_env [file "A.png"; file "a.png"])
            (lit "in") (lit "out") (lit "en-US"))
       (lit "out/all_text.md")
     <> file_content
          (run ascii_word ascii_lower (case_env [file "a.png"; file "A.png"])
               (lit "in") (lit "out") (lit "en-US"))
          (lit "out/all_text.md").
Proof.
  split; [apply perm_swap|]. vm_compute. discriminate.
Qed.

(** C8, amended: two runs on the same directory (whatever the order in
    which it is listed), with the same language tags and the same
    outcomes of the OCR adapter, do exactly the same (the same files
    with the same contents, byte for byte, and the same output),
    provided no two eligible files have the same name in lower case. *)
Theorem run_deterministic is_word str_lower env sc1 sc2 in_dir out_dir lang_str :
  Permutation (sc1 (expanduser env in_dir)) (sc2 (expanduser env in_dir)) ->
  (forall e, In e (sc1 (expanduser env in_dir)) -> mem SLASH (name e) = false) ->
  (forall e e',
     In e (sc1 (expanduser env in_dir)) -> In e' (sc1 (expanduser env in_dir)) ->
     eligible str_lower e = true -> eligible str_lower e' = true ->
     str_lower (name e) = str_lower (name e') -> name e = name e') ->
  run is_word str_lower (with_scandir env sc1) in_dir out_dir lang_str
  = run is_word str_lower (with_scandir env sc2) in_dir out_dir lang_str.
Proof.
  intros Hp Hslash Hdistinct. unfold run.
  rewrite (list_images_permutation str_lower env sc1 sc2 in_dir Hp Hslash Hdistinct).
  reflexivity.
Qed.

Lemma run_deterministic_witness :
  run ascii_word ascii_lower
      (with_scandir (three_images demo_vision)
         (fun _ => [file "good1.png"; file "corrupt.png"; file "good2.png"]))
      (lit "in") (lit "out") (lit "en-US")
  = run ascii_word ascii_lower
      (with_scandir (three_images demo_vision)
         (fun _ => [file "good2.png"; file "corrupt.png"; file "good1.png"]))
      (lit "in") (lit "out") (lit "en-US").
Proof.
  apply (run_deterministic ascii_word ascii_lower (three_images demo_vision)
           (fun _ => [file "good1.png"; file "corrupt.png"; file "good2.png"])
           (fun _ => [file "good2.png"; file "corrupt.png"; file "good1.png"])).
  - apply (Permutation_trans (l' := [file "corrupt.png"; file "good1.png"; file "good2.png"])).
    + apply perm_swap.
    + apply (Permutation_trans (l' := [file "corrupt.png"; file "good2.png"; file "good1.png"])).
      * apply perm_skip, perm_swap.
      * apply (Permutation_trans (l' := [file "good2.png"; file "corrupt.png"; file "good1.png"])).
        -- apply perm_swap.
        -- apply Permutation_refl.
  - intros e He. simpl in He.
    repeat (destruct He as [<-|He]; [reflexivity|]). contradiction.
  - intros e e' He He' _ _ Hlow. simpl in He, He'.
    repeat (destruct He as [<-|He]; [|]); try contradiction;
      repeat (destruct He' as [<-|He']; [|]); try contradiction;
      try reflexivity; vm_compute in Hlow; discriminate.
Defined.

(** ** Failure of the OCR adapter (C7) *)

Lemma reconstruct_nil : reconstruct [] = [].
Proof. reflexivity. Qed.

Lemma ocr_with_vision_failed env p langs :
  failed (recognize env p langs) = true -> ocr_with_vision env p langs = [].
Proof.
  unfold ocr_with_vision. now destruct (recognize env p langs).
Qed.

Lemma ocr_with_vision_zero_regions env p langs :
  ocr_with_vision
    (with_recognize env (fun p l => as_zero_regions (recognize env p l))) p langs
  = ocr_with_vision env p langs.
Proof.
  unfold ocr_with_vision. simpl. now destruct (recognize env p langs).
Qed.

Lemma fold_left_ext_all {X Y} (f f' : X -> Y -> X) l :
  (forall a y, f a y = f' a y) ->
  forall a, fold_left f l a = fold_left f' l a.
Proof.
  intros H. induction l as [|y l IH]; intros a; simpl; [reflexivity|].
  now rewrite H, IH.
Qed.

Lemma run_zero_regions is_word str_lower env in_dir out_dir lang_str :
  run is_word str_lower
      (with_recognize env (fun p l => as_zero_regions (recognize env p l)))
      in_dir out_dir lang_str
  = run is_word str_lower env in_dir out_dir lang_str.
Proof.
  unfold run.
  change (list_images str_lower (with_recognize env _) in_dir)
    with (list_images str_lower env in_dir).
  destruct (list_images str_lower env in_dir) as [|p imgs]; [reflexivity|].
  cbn [expanduser with_recognize].
  rewrite (fold_left_ext_all
             (process_image is_word (with_recognize env _) (parse_langs lang_str)
                (path_join (expanduser env out_dir) (lit "txt")))
             (process_image is_word env (parse_langs lang_str)
                (path_join (expanduser env out_dir) (lit "txt")))).
  - reflexivity.
  - intros acc q. unfold process_image.
    now rewrite ocr_with_vision_zero_regions.
Qed.

Lemma image_failed is_word env langs p :
  failed (recognize env p langs) = true ->
  image_text env langs p = []
  /\ image_urls is_word env langs p = []
  /\ image_section is_word env langs p
     = lit "## " ++ image_base p ++ [NL; NL] ++ FENCE ++ [NL; NL] ++ FENCE ++ [NL].
Proof.
  intros H. apply ocr_with_vision_failed in H.
  unfold image_section, image_urls, image_text. rewrite H. repeat split.
Qed.

(** *** Discovery on ASCII names *)

Lemma insert_ext_in {X} (lt lt' : X -> X -> bool) x s :
  (forall h, In h s -> lt h x = lt' h x) -> insert lt x s = insert lt' x s.
Proof.
  induction s as [|h t IH]; simpl; intros H; [reflexivity|].
  rewrite <- (H h) by now left.
  destruct (lt h x); [|reflexivity]. f_equal. apply IH.
  intros k Hk. apply H. now right.
Qed.

Lemma list_sort_ext_in {X} (lt lt' : X -> X -> bool) l :
  (forall a b, In a l -> In b l -> lt a b = lt' a b) ->
  list_sort lt l = list_sort lt' l.
Proof.
  induction l as [|x l IH]; simpl; intros H; [reflexivity|].
  rewrite <- IH by (intros; apply H; now right).
  apply insert_ext_in. intros h Hh. apply H; [right|now left].
  eapply Permutation_in; [|exact Hh].
  apply Permutation_sym, list_sort_perm.
Qed.

Lemma is_ascii_skipn n s : is_ascii s -> is_ascii (skipn n s).
Proof.
  unfold is_ascii. rewrite !List.Forall_forall. intros H c Hc.
  apply H. rewrite <- (List.firstn_skipn n s). apply in_or_app. now right.
Qed.

Lemma is_ascii_ext s : is_ascii s -> is_ascii (snd (splitext s)).
Proof.
  intros H. unfold splitext.
  destruct (_ && _); simpl; [now apply is_ascii_skipn | constructor].
Qed.

Lemma is_ascii_path_join a b : is_ascii a -> is_ascii b -> is_ascii (path_join a b).
Proof.
  intros Ha Hb. unfold path_join, is_ascii in *.
  destruct (startswith b [SLASH]); [exact Hb|].
  destruct (rev a) as [|c r]; [exact Hb|].
  destruct (c =? SLASH)%N; apply List.Forall_app; split; try assumption.
  constructor; [reflexivity | exact Hb].
Qed.

Lemma list_images_ascii str_lower env in_dir :
  lower_table_ok str_lower ->
  is_ascii (expanduser env in_dir) ->
  (forall e, In e (scandir env (expanduser env in_dir)) -> is_ascii (name e)) ->
  list_images str_lower env in_dir = list_images ascii_lower env in_dir.
Proof.
  intros Hlow Hd Hnames. unfold list_images.
  destruct (isdir env (expanduser env in_dir)); simpl; [|reflexivity].
  rewrite (List.filter_ext_in (eligible str_lower) (eligible ascii_lower)).
  - apply list_sort_ext_in. intros p q Hp Hq.
    apply in_map_iff in Hp. destruct Hp as [e [<- He]].
    apply in_map_iff in Hq. destruct Hq as [e' [<- He']].
    apply List.filter_In in He, He'.
    unfold path_lt, sort_key, basename.
    rewrite !Hlow; [reflexivity| |];
      apply is_ascii_skipn, is_ascii_path_join; try assumption;
      apply Hnames; tauto.
  - intros e He. unfold eligible, supported.
    rewrite Hlow; [reflexivity|]. now apply is_ascii_ext, Hnames.
Qed.

Lemma three_images_found str_lower vision :
  lower_table_ok str_lower ->
  list_images str_lower (three_images vision) (lit "in")
  = [lit "in/corrupt.png"; lit "in/good1.png"; lit "in/good2.png"].
Proof.
  intros Hlow. rewrite list_images_ascii.
  - vm_compute. reflexivity.
  - exact Hlow.
  - ascii_text.
  - intros e He. simpl in He.
    repeat (destruct He as [<-|He]; [ascii_text|]). contradiction.
Qed.

(** C7, as stated, fails on its own example: the images are processed
    in the order of their lower-case names, so [corrupt.png] comes
    before [good1.png], and the middle section of [all_text.md] is the
    one of [good1.png], with its text and its links. *)
Lemma failed_image_section_is_not_the_middle_one :
  failed (recognize demo_batch (lit "in/corrupt.png") (parse_langs (lit "en-US")))
  = true
  /\ map name (scandir demo_batch (lit "in"))
     = [lit "good1.png"; lit "corrupt.png"; lit "good2.png"]
  /\ file_content
       (run ascii_word ascii_lower demo_batch (lit "in") (lit "out") (lit "en-US"))
       (lit "out/all_text.md")
     = Some (lit "# OCR Output" ++ [NL; NL] ++ join RULE demo_sections ++ [NL])
  /\ length demo_sections = 3
  /\ nth 1 demo_sections []
     = lit "## good1" ++ [NL; NL] ++ FENCE ++ [NL]
       ++ lit "http://b.org www.a.org" ++ [NL] ++ lit "see www.a.org, and"
       ++ [NL] ++ FENCE ++ [NL] ++ [NL] ++ LINKS_LABEL ++ [NL]
       ++ lit "- http://b.org" ++ [NL] ++ lit "- http://www.a.org" ++ [NL]
       ++ lit "- http://www.a.org" ++ [NL]
  /\ nth 1 demo_sections []
     <> lit "## corrupt" ++ [NL; NL] ++ FENCE ++ [NL; NL] ++ FENCE ++ [NL].
Proof.
  vm_compute. repeat split. discriminate.
Qed.

(** C7, amended: a failure of the OCR adapter on an image does not
    stop the run and is exactly an outcome with no region: the run is
    the one in which every failure is replaced by zero regions; one
    text file per image is written, in the order of the images, and
    then the aggregate files; a failing image has an empty text, no
    URL, and a section with an empty fenced block and no links list.
    For the images [good1.png, corrupt.png, good2.png] with
    [corrupt.png] failing, three text files are written, the one of
    [corrupt.png] empty, and [all_text.md] has three sections, of which
    the one of [corrupt.png], the first in the order of processing
    (lower-case file names), has the empty fenced block. *)
Theorem ocr_failure_isolated is_word str_lower env in_dir out_dir lang_str :
  let langs := parse_langs lang_str in
  let imgs := list_images str_lower env in_dir in
  run is_word str_lower env in_dir out_dir lang_str
  = run is_word str_lower
        (with_recognize env (fun p l => as_zero_regions (recognize env p l)))
        in_dir out_dir lang_str
  /\ (imgs <> [] ->
      writes (run is_word str_lower env in_dir out_dir lang_str)
      = map (fun p => (txt_path_of (path_join (expanduser env out_dir) (lit "txt")) p,
                       image_text env langs p)) imgs
        ++ aggregate_writes (expanduser env out_dir)
             (map (image_section is_word env langs) imgs)
             (flat_map (image_occurrences is_word env langs) imgs))
  /\ (forall p, failed (recognize env p langs) = true ->
        image_text env langs p = []
        /\ image_urls is_word env langs p = []
        /\ image_section is_word env langs p
           = lit "## " ++ image_base p ++ [NL; NL] ++ FENCE ++ [NL; NL]
             ++ FENCE ++ [NL])
  /\ (forall vision,
        lower_table_ok str_lower ->
        failed (vision (lit "in/corrupt.png") langs) = true ->
        writes (run is_word str_lower (three_images vision)
                    (lit "in") (lit "out") lang_str)
        = [(lit "out/txt/corrupt.txt", []);
           (lit "out/txt/good1.txt",
            image_text (three_images vision) langs (lit "in/good1.png"));
           (lit "out/txt/good2.txt",
            image_text (three_images vision) langs (lit "in/good2.png"))]
          ++ aggregate_writes (lit "out")
               [lit "## corrupt" ++ [NL; NL] ++ FENCE ++ [NL; NL] ++ FENCE ++ [NL];
                image_section is_word (three_images vision) langs (lit "in/good1.png");
                image_section is_word (three_images vision) langs (lit "in/good2.png")]
               (image_occurrences is_word (three_images vision) langs
                  (lit "in/good1.png")
                ++ image_occurrences is_word (three_images vision) langs
                     (lit "in/good2.png"))).
Proof.
  intros langs imgs. split; [|split; [|split]].
  - symmetry. apply run_zero_regions.
  - apply run_writes.
  - intros p. apply image_failed.
  - intros vision Hlow Hfail.
    assert (list_images str_lower (three_images vision) (lit "in")
            = [lit "in/corrupt.png"; lit "in/good1.png"; lit "in/good2.png"])
      as Himgs by now apply three_images_found.
    rewrite run_writes by (rewrite Himgs; discriminate).
    rewrite Himgs. fold langs.
    destruct (image_failed is_word (three_images vision) langs
                (lit "in/corrupt.png") Hfail) as [Ht [Hu Hs]].
    cbn [map flat_map]. unfold image_occurrences at 1.
    rewrite Ht, Hu, Hs, List.app_nil_r. reflexivity.
Qed.

Lemma ocr_failure_isolated_witness :
  image_text demo_batch (parse_langs (lit "en-US")) (lit "in/corrupt.png") = [].
Proof.
  refine (proj1 (proj1 (proj2 (proj2
    (ocr_failure_isolated ascii_word ascii_lower demo_batch
       (lit "in") (lit "out") (lit "en-US")))) (lit "in/corrupt.png") _)).
  reflexivity.
Defined.

Lemma list_images_spec_witness :
  list_images ascii_lower demo_env (lit "elsewhere") = [].
Proof.
  refine (proj2 (proj2 (proj2
    (list_images_spec ascii_lower demo_env (lit "elsewhere"))) ) _).
  reflexivity.
Defined.

(** ** Plain text from markdown (C5) *)

Lemma splitlines_nonempty c s : splitlines (c :: s) <> [].
Proof.
  simpl. destruct (is_linebreak c); [discriminate|].
  destruct (splitlines s); discriminate.
Qed.

(** A line feed ends a line: the lines of [x ++ NL :: y] are those of
    [x ++ [NL]] and then those of [y]. *)
Lemma splitlines_app_nl_fuel n :
  forall x y, length x <= n ->
    splitlines (x ++ NL :: y) = splitlines (x ++ [NL]) ++ splitlines y.
Proof.
  induction n as [|n IH]; intros x y Hn.
  - destruct x; [|simpl in Hn; lia]. simpl. now destruct y.
  - destruct x as [|c x]; [simpl; now destruct y|].
    simpl in Hn. cbn [app splitlines].
    destruct (is_linebreak c) eqn:Ec.
    + destruct x as [|d x]; cbn [app].
      * destruct (N.eqb_spec c 13) as [->|Hc]; simpl; [reflexivity|].
        now destruct y.
      * destruct (N.eqb c 13 && N.eqb d 10); simpl; f_equal.
        -- apply IH. simpl in Hn. lia.
        -- apply (IH (d :: x)). lia.
    + rewrite (IH x y) by lia.
      destruct (splitlines (x ++ [NL])) as [|l ls] eqn:E; [|reflexivity].
      destruct x; discriminate E || now apply splitlines_nonempty in E.
Qed.

Lemma splitlines_app_nl x y :
  splitlines (x ++ NL :: y) = splitlines (x ++ [NL]) ++ splitlines y.
Proof. now apply (splitlines_app_nl_fuel (length x)). Qed.

Lemma splitlines_chunk x y :
  splitlines ((x ++ [NL]) ++ y) = splitlines (x ++ [NL]) ++ splitlines y.
Proof. rewrite <- List.app_assoc. apply splitlines_app_nl. Qed.

Lemma filter_all {X} (f : X -> bool) l :
  (forall x, In x l -> f x = true) -> List.filter f l = l.
Proof. intros H. apply List.forallb_filter_id. now apply forallb_forall. Qed.

Lemma make_section_chunks base text urls :
  make_section base text urls
  = ((lit "## " ++ base) ++ [NL]) ++ ([] ++ [NL]) ++ (FENCE ++ [NL])
    ++ (text ++ [NL]) ++ (FENCE ++ [NL])
    ++ match urls with
       | [] => []
       | _ :: _ =>
           ([] ++ [NL]) ++ (LINKS_LABEL ++ [NL])
           ++ (join [NL] (map (fun u => lit "- " ++ u) urls) ++ [NL]) ++ []
       end.
Proof.
  unfold make_section. destruct urls; rewrite <- !List.app_assoc; reflexivity.
Qed.

Lemma unframed_section_chunks base text urls :
  unframed_section base text urls
  = ((lit "## " ++ base) ++ [NL]) ++ ([] ++ [NL]) ++ (text ++ [NL])
    ++ match urls with
       | [] => []
       | _ :: _ =>
           ([] ++ [NL])
           ++ (join [NL] (map (fun u => lit "- " ++ u) urls) ++ [NL]) ++ []
       end.
Proof.
  unfold unframed_section. destruct urls; rewrite <- !List.app_assoc; reflexivity.
Qed.

(** Without a line that looks like framing, the lines kept from the
    markdown section are the lines of the unframed section. *)
Lemma kept_lines base text urls :
  (forall ln, In ln (splitlines (unframed_section base text urls)) ->
              framing ln = false) ->
  List.filter (fun ln => negb (framing ln))
              (splitlines (make_section base text urls))
  = splitlines (unframed_section base text urls).
Proof.
  rewrite make_section_chunks, unframed_section_chunks. intros H.
  assert (forall l, (forall ln, In ln l -> framing ln = false) ->
                    List.filter (fun ln => negb (framing ln)) l = l) as Hkeep.
  { intros l Hl. apply filter_all. intros ln Hln. now rewrite Hl. }
  destruct urls as [|u urls];
    rewrite !splitlines_chunk in *; rewrite !List.filter_app;
    change (splitlines (FENCE ++ [NL])) with [FENCE];
    change (splitlines (LINKS_LABEL ++ [NL])) with [LINKS_LABEL];
    change (List.filter (fun ln => negb (framing ln)) [FENCE]) with (@nil (list N));
    change (List.filter (fun ln => negb (framing ln)) [LINKS_LABEL])
      with (@nil (list N));
    simpl app;
    rewrite !Hkeep; try reflexivity;
    intros ln Hln; apply H; rewrite !List.in_app_iff; tauto.
Qed.

Lemma plain_block_unframed base text urls :
  (forall ln, In ln (splitlines (unframed_section base text urls)) ->
              framing ln = false) ->
  plain_block (make_section base text urls)
  = strip (join [NL] (splitlines (unframed_section base text urls))).
Proof. intros H. unfold plain_block. now rewrite kept_lines. Qed.

(** With line feeds as the only boundaries, joining the lines gives
    the string back, up to a final line feed. *)
Lemma join_cons_cons sep x y l :
  join sep (x :: y :: l) = x ++ sep ++ join sep (y :: l).
Proof. reflexivity. Qed.

Lemma join_splitlines s :
  only_line_feeds s ->
  exists tail, (tail = [] \/ tail = [NL])
               /\ s = join [NL] (splitlines s) ++ tail.
Proof.
  induction 1 as [|c s Hc Hs [tail [Ht IH]]].
  - exists []. split; [now left|reflexivity].
  - cbn [splitlines]. destruct (is_linebreak c) eqn:Ec.
    + rewrite (Hc eq_refl). destruct s as [|d s].
      * exists [NL]. split; [now right|reflexivity].
      * change (N.eqb NL 13) with false. cbn [andb].
        exists tail. split; [exact Ht|].
        destruct (splitlines (d :: s)) as [|l ls] eqn:E;
          [now apply splitlines_nonempty in E|].
        rewrite join_cons_cons. simpl. f_equal. exact IH.
    + destruct s as [|d s].
      * exists []. split; [now left|reflexivity].
      * exists tail. split; [exact Ht|].
        destruct (splitlines (d :: s)) as [|l ls] eqn:E;
          [now apply splitlines_nonempty in E|].
        destruct ls as [|l' ls]; simpl in *; now rewrite IH at 1.
Qed.

Lemma lstrip_by_app f x y :
  lstrip_by f (x ++ y)
  = if forallb f x then lstrip_by f y else lstrip_by f x ++ y.
Proof.
  induction x as [|c x IH]; simpl; [reflexivity|].
  destruct (f c); [exact IH|reflexivity].
Qed.

Lemma rstrip_by_snoc f z w : f w = true -> rstrip_by f (z ++ [w]) = rstrip_by f z.
Proof.
  intros Hw. unfold rstrip_by. rewrite List.rev_app_distr. simpl. now rewrite Hw.
Qed.

Lemma lstrip_by_all f x : forallb f x = true -> lstrip_by f x = [].
Proof.
  induction x as [|c x IH]; simpl; [reflexivity|].
  destruct (f c); [exact IH|discriminate].
Qed.

Lemma strip_snoc_nl x : strip (x ++ [NL]) = strip x.
Proof.
  unfold strip. rewrite lstrip_by_app. simpl.
  destruct (forallb is_space x) eqn:E.
  - now rewrite lstrip_by_all.
  - now apply rstrip_by_snoc.
Qed.

Lemma strip_join_splitlines s :
  only_line_feeds s -> strip (join [NL] (splitlines s)) = strip s.
Proof.
  intros H. destruct (join_splitlines s H) as [tail [[->| ->] Hs]].
  - rewrite List.app_nil_r in Hs. now rewrite <- Hs.
  - rewrite Hs at 2. now rewrite strip_snoc_nl.
Qed.

(** C5, as stated, fails: a recognized line that itself begins with a
    code fence (or with the links label) is removed from the plain
    text with the framing lines.  The image of [fence_env] reads
    [a], [```js], [b]; its section of [all_text.txt] reads [a], [b]. *)
Lemma plain_text_drops_fence_like_line :
  image_text fence_env (parse_langs (lit "en-US")) (lit "in/shot.png")
  = fence_text
  /\ splitlines fence_text = [lit "a"; lit "```js"; lit "b"]
  /\ file_content
       (run ascii_word ascii_lower fence_env (lit "in") (lit "out") (lit "en-US"))
       (lit "out/all_text.md")
     = Some (combined_md [make_section (lit "shot") fence_text []])
  /\ file_content
       (run ascii_word ascii_lower fence_env (lit "in") (lit "out") (lit "en-US"))
       (lit "out/all_text.txt")
     = Some (lit "## shot" ++ [NL; NL] ++ lit "a" ++ [NL] ++ lit "b" ++ [NL])
  /\ plain_block (make_section (lit "shot") fence_text [])
     <> strip (unframed_section (lit "shot") fence_text []).
Proof.
  vm_compute. repeat split. discriminate.
Qed.

(** C5, amended: [all_text.txt] has the sections of [all_text.md], in
    the same order and joined by the same rule, each turned into its
    plain block; and the plain block of a section is the section
    without its two fence lines and its label line (heading, text lines
    and bullet lines kept, line boundaries written as line feeds, white
    space around the block stripped), provided no line of the heading,
    of the recognized text or of the bullets itself begins with a code
    fence or with the links label: such lines are removed too. *)
Theorem plain_text_mirrors_markdown is_word str_lower env in_dir out_dir lang_str :
  let langs := parse_langs lang_str in
  let imgs := list_images str_lower env in_dir in
  let sections := map (image_section is_word env langs) imgs in
  (imgs <> [] ->
   exists before after,
     writes (run is_word str_lower env in_dir out_dir lang_str)
     = before
       ++ [(path_join (expanduser env out_dir) (lit "all_text.md"),
            lit "# OCR Output" ++ [NL; NL] ++ join RULE sections ++ [NL]);
           (path_join (expanduser env out_dir) (lit "all_text.txt"),
            join RULE (map plain_block sections) ++ [NL])]
       ++ after)
  /\ (forall base text urls,
        (forall ln, In ln (splitlines (unframed_section base text urls)) ->
                    framing ln = false) ->
        plain_block (make_section base text urls)
        = strip (join [NL] (splitlines (unframed_section base text urls)))
        /\ (only_line_feeds (unframed_section base text urls) ->
            plain_block (make_section base text urls)
            = strip (unframed_section base text urls))).
Proof.
  intros langs imgs sections. split.
  - intros Himgs.
    rewrite (run_writes is_word str_lower env in_dir out_dir lang_str Himgs).
    unfold aggregate_writes. fold langs imgs sections.
    eexists _, [_; _]. reflexivity.
  - intros base text urls Hlines. split.
    + now apply plain_block_unframed.
    + intros Hnl. rewrite plain_block_unframed by exact Hlines.
      now apply strip_join_splitlines.
Qed.

Lemma plain_text_mirrors_markdown_witness :
  plain_block (make_section (lit "good1")
                 (lit "hello" ++ [NL] ++ lit "world") [lit "http://b.org"])
  = strip (join [NL] (splitlines
             (unframed_section (lit "good1")
                (lit "hello" ++ [NL] ++ lit "world") [lit "http://b.org"]))).
Proof.
  refine (proj1 (proj2
    (plain_text_mirrors_markdown ascii_word ascii_lower demo_env
       (lit "in") (lit "out") (lit "en-US"))
    (lit "good1") (lit "hello" ++ [NL] ++ lit "world") [lit "http://b.org"] _)).
  intros ln Hln. vm_compute in Hln.
  repeat (destruct Hln as [<-|Hln]; [reflexivity|]). contradiction.
Defined.

Example plain_block_demo :
  plain_block (make_section (lit "good1")
                 (lit "hello" ++ [NL] ++ lit "world") [lit "http://b.org"])
  = lit "## good1" ++ [NL; NL] ++ lit "hello" ++ [NL] ++ lit "world"
    ++ [NL; NL] ++ lit "- http://b.org".
Proof. vm_compute. reflexivity. Qed.

(** * Further properties of the code *)

(** ** The sort keeps the input order of ties, and commutes with filters *)

Section SortFilter.
Context {A : Type}.
Variable lt : A -> A -> bool.
Variable P : A -> bool.

Lemma filter_insert_class x s :
  (forall a b, P a = true -> P b = true -> lt a b = false) ->
  List.filter P (insert lt x s) = List.filter P (x :: s).
Proof.
  intros Hclass. induction s as [|h t IH]; [reflexivity|].
  cbn [insert]. destruct (lt h x) eqn:E; [|reflexivity].
  cbn [List.filter] in *. rewrite IH.
  destruct (P h) eqn:Eh, (P x) eqn:Ex; try reflexivity.
  rewrite (Hclass h x Eh Ex) in E. discriminate.
Qed.

Lemma filter_list_sort_class l :
  (forall a b, P a = true -> P b = true -> lt a b = false) ->
  List.filter P (list_sort lt l) = List.filter P l.
Proof.
  intros Hclass. induction l as [|x l IH]; [reflexivity|].
  cbn [list_sort]. rewrite filter_insert_class by exact Hclass.
  cbn [List.filter]. now rewrite IH.
Qed.

Hypothesis lt_asym : forall a b, lt a b = true -> lt b a = false.
Hypothesis le_trans : forall a b c, le lt a b -> le lt b c -> le lt a c.

Lemma filter_insert_out x s :
  P x = false -> List.filter P (insert lt x s) = List.filter P s.
Proof.
  intros Hx. induction s as [|h t IH]; cbn [insert List.filter].
  - now rewrite Hx.
  - destruct (lt h x); cbn [List.filter]; [now rewrite IH|].
    now rewrite Hx.
Qed.

Lemma filter_insert_in x s :
  StronglySorted (le lt) s -> P x = true ->
  List.filter P (insert lt x s) = insert lt x (List.filter P s).
Proof.
  intros Hs Hx. induction Hs as [|h t Hs IH Hh]; cbn [insert List.filter].
  - now rewrite Hx.
  - destruct (lt h x) eqn:E; cbn [List.filter].
    + rewrite IH. destruct (P h); [|reflexivity].
      cbn [insert]. now rewrite E.
    + rewrite Hx.
      assert (forall k, In k (List.filter P (h :: t)) -> lt k x = false) as Hk.
      { intros k Hin. apply List.filter_In in Hin. destruct Hin as [[<-|Hin] _].
        - exact E.
        - rewrite List.Forall_forall in Hh.
          exact (le_trans x h k E (Hh k Hin)). }
      destruct (List.filter P (h :: t)) as [|k r] eqn:Ef.
      * cbn [List.filter] in Ef. rewrite Ef. reflexivity.
      * cbn [List.filter] in Ef. rewrite Ef. cbn [insert].
        now rewrite (Hk k (or_introl eq_refl)).
Qed.

Lemma filter_list_sort l :
  List.filter P (list_sort lt l) = list_sort lt (List.filter P l).
Proof.
  induction l as [|x l IH]; [reflexivity|].
  cbn [list_sort List.filter]. destruct (P x) eqn:Ex.
  - cbn [list_sort]. rewrite <- IH. apply filter_insert_in; [|exact Ex].
    now apply list_sort_sorted.
  - rewrite filter_insert_out by exact Ex. exact IH.
Qed.
End SortFilter.

(** ** Reading order: ties and blank regions *)

Lemma at_origin_of_not_lt o a b :
  at_origin_of o a = true -> at_origin_of o b = true -> obs_lt a b = false.
Proof.
  unfold at_origin_of. rewrite !andb_true_iff, !Qeq_bool_iff.
  intros [Hax Hay] [Hbx Hby]. unfold obs_lt.
  apply tuple_lt_false. right. unfold _key. simpl. split.
  - now rewrite <- Hay, <- Hby.
  - rewrite <- Hax, <- Hbx. apply Qle_refl.
Qed.

(** X1: the text block reads the regions in reading order, and the
    regions that share a bounding-box origin keep, among themselves,
    the order in which the engine returned them. *)
Theorem reconstruct_keeps_order_of_ties (rs : list Observation) :
  exists sorted,
    reconstruct rs = join [NL] (somes (map line_of sorted))
    /\ Permutation rs sorted
    /\ StronglySorted reading_le sorted
    /\ forall o, List.filter (at_origin_of o) sorted
                 = List.filter (at_origin_of o) rs.
Proof.
  exists (list_sort obs_lt rs). split; [reflexivity|].
  split; [apply list_sort_perm|]. split.
  - apply (StronglySorted_weaken (le obs_lt)).
    + intros a b. apply le_obs_reading.
    + apply list_sort_sorted; [exact obs_lt_asym | exact obs_le_trans].
  - intros o. apply filter_list_sort_class. apply at_origin_of_not_lt.
Qed.

Lemma somes_has_line l :
  somes (map line_of (List.filter has_line l)) = somes (map line_of l).
Proof.
  induction l as [|o l IH]; [reflexivity|].
  cbn [List.filter]. unfold has_line at 1.
  destruct (line_of o) eqn:E; cbn [map somes]; rewrite ?E; now rewrite IH.
Qed.

(** X2: a region without a candidate, or whose best candidate is the
    empty string, has no effect on the text block: the block is the one
    of the other regions alone (no empty line is left for it). *)
Theorem reconstruct_ignores_blank_regions (rs : list Observation) :
  reconstruct rs = reconstruct (List.filter has_line rs).
Proof.
  unfold reconstruct. cbv zeta.
  rewrite <- (somes_has_line (list_sort obs_lt rs)).
  now rewrite (filter_list_sort obs_lt has_line obs_lt_asym obs_le_trans).
Qed.

Example reconstruct_blank_demo :
  reconstruct [obs 0 0.9 "a"; obs 0 0.5 ""; obs 0 0.1 "b"]
  = lit "a" ++ [NL] ++ lit "b".
Proof. vm_compute. reflexivity. Qed.

(** ** Discovery: files whose names differ in case only *)

(** X3: among the images that [list_images] returns, those with the
    same sort key (the same file name in lower case) come in the order
    in which the directory lists them. *)
Theorem list_images_keeps_listing_order_of_ties str_lower env in_dir key :
  List.filter (fun p => str_eqb (sort_key str_lower p) key)
              (list_images str_lower env in_dir)
  = if isdir env (expanduser env in_dir)
    then List.filter (fun p => str_eqb (sort_key str_lower p) key)
           (map (fun entry => path_join (expanduser env in_dir) (name entry))
                (List.filter (eligible str_lower)
                             (scandir env (expanduser env in_dir))))
    else [].
Proof.
  unfold list_images.
  destruct (isdir env (expanduser env in_dir)); [|reflexivity]. cbn [negb].
  apply filter_list_sort_class. intros p q Hp Hq.
  apply str_eqb_eq in Hp, Hq. unfold path_lt. rewrite Hp, Hq.
  destruct (str_lt key key) eqn:E; [|reflexivity].
  now rewrite (str_lt_asym _ _ E) in E.
Qed.

Example list_images_case_demo :
  list_images ascii_lower (case_env [file "a.png"; file "B.png"; file "A.png"])
              (lit "in")
  = [lit "in/a.png"; lit "in/A.png"; lit "in/B.png"].
Proof. vm_compute. reflexivity. Qed.

(** ** The URL extractor: what a match is made of *)

Lemma finditer_from_In tbl r :
  forall s pw skip m,
    In m (finditer_from tbl r pw skip s) ->
    exists pw' s' len, match_at tbl r pw' s' = Some len /\ m = firstn len s'.
Proof.
  induction s as [|c s IH]; cbn [finditer_from]; intros pw skip m Hin;
    [contradiction|].
  destruct skip as [|n]; [|now apply IH in Hin].
  destruct (match_at tbl r pw (c :: s)) as [len|] eqn:E.
  - destruct Hin as [<-|Hin]; [now exists pw, (c :: s), len|]. now apply IH in Hin.
  - now apply IH in Hin.
Qed.

(** A character outside the class of the parenthesized parts is
    accepted by no class of [URL_REGEX]. *)
Lemma rejects_URL c : url_char_paren c = false -> rejects c URL_REGEX = true.
Proof.
  intros Hc.
  assert (url_char c = false) as Hc'.
  { unfold url_char, url_char_paren in *.
    apply negb_false_iff in Hc. apply negb_false_iff.
    apply orb_true_iff in Hc. apply orb_true_iff.
    destruct Hc as [Hc|Hc]; [now left|right].
    unfold mem in *. rewrite existsb_exists in *.
    destruct Hc as [x [Hx Hcx]]. exists x. split; [|exact Hcx].
    simpl in Hx. simpl. tauto. }
  unfold URL_REGEX, icase, chr, plus, opt, seq.
  cbn -[N.eqb N.sub url_char url_char_paren]. rewrite Hc, Hc'.
  cbn -[N.eqb N.sub].
  repeat match goal with
         | |- context [if (?a =? ?b)%N then _ else _] =>
             let v := eval vm_compute in (a =? b)%N in
             change (a =? b)%N with v; cbn iota
         end.
  cbn -[N.eqb N.sub].
  repeat match goal with
         | |- context [(c =? ?b)%N] =>
             destruct (N.eqb_spec c b); [subst c; vm_compute in Hc; discriminate|]
         | |- context [(?b =? c)%N] =>
             destruct (N.eqb_spec b c); [subst c; vm_compute in Hc; discriminate|]
         end.
  reflexivity.
Qed.

Lemma not_word_outside tbl c :
  word_table_ok tbl -> url_char_paren c = false -> tbl c = false.
Proof.
  intros [Hascii Hspace] Hc. destruct (is_space c) eqn:Es; [now apply Hspace|].
  unfold url_char_paren in Hc. rewrite Es in Hc. cbn [orb] in Hc.
  apply negb_false_iff in Hc. unfold mem in Hc. rewrite existsb_exists in Hc.
  destruct Hc as [x [Hx Hcx]]. apply N.eqb_eq in Hcx. subst x.
  simpl in Hx.
  repeat (destruct Hx as [<-|Hx]; [now rewrite Hascii|]). contradiction.
Qed.

Lemma match_has_no_outsider tbl pw s len c :
  word_table_ok tbl ->
  match_at tbl URL_REGEX pw s = Some len ->
  In c (firstn len s) -> url_char_paren c = true.
Proof.
  intros Hw Hm Hin. destruct (url_char_paren c) eqn:Ec; [reflexivity|exfalso].
  apply in_split in Hin. destruct Hin as [a [b Hab]].
  assert (s = a ++ c :: (b ++ skipn len s)) as Hs.
  { rewrite <- (List.firstn_skipn len s) at 1. rewrite Hab.
    now rewrite <- List.app_assoc. }
  assert (length a < len) as Hlen.
  { assert (length (firstn len s) <= len) as H by apply List.firstn_le_length.
    rewrite Hab, List.length_app in H. simpl in H. lia. }
  rewrite Hs in Hm. rewrite match_at_cut in Hm.
  - apply match_at_le in Hm. lia.
  - now apply not_word_outside.
  - now apply rejects_URL.
Qed.

Lemma lstrip_by_incl f s c : In c (lstrip_by f s) -> In c s.
Proof.
  induction s as [|x s IH]; simpl; [tauto|].
  destruct (f x); [right; now apply IH|tauto].
Qed.

Lemma rstrip_by_incl f s c : In c (rstrip_by f s) -> In c s.
Proof.
  unfold rstrip_by. rewrite <- List.in_rev. intros H.
  apply lstrip_by_incl in H. now apply List.in_rev.
Qed.

(** X4: an extracted URL holds no white space, no angle bracket and no
    quote, whatever the text. *)
Theorem extract_urls_characters tbl text u c :
  word_table_ok tbl ->
  In u (extract_urls tbl text) -> In c u ->
  is_space c = false /\ mem c (QUOTE :: lit "<>'") = false.
Proof.
  intros Hw Hu Hc.
  assert (url_char_paren c = true) as H.
  { unfold extract_urls in Hu. apply in_map_iff in Hu.
    destruct Hu as [m [<- Hm]]. unfold finditer in Hm.
    apply finditer_from_In in Hm. destruct Hm as [pw [s [len [Hm ->]]]].
    unfold normalize_url, rstrip in Hc.
    destruct (startswith _ (lit "www.")).
    - apply in_app_or in Hc. destruct Hc as [Hc|Hc].
      + simpl in Hc. repeat (destruct Hc as [<-|Hc]; [reflexivity|]).
        contradiction.
      + apply rstrip_by_incl in Hc. eapply match_has_no_outsider; eassumption.
    - apply rstrip_by_incl in Hc. eapply match_has_no_outsider; eassumption. }
  unfold url_char_paren in H. apply negb_true_iff, orb_false_iff in H. exact H.
Qed.

Lemma extract_urls_characters_witness :
  is_space 47%N = false /\ mem 47%N (QUOTE :: lit "<>'") = false.
Proof.
  apply (extract_urls_characters ascii_word
           (lit "see <http://b.org/x y>") (lit "http://b.org/x") 47%N).
  - exact word_table_ok_ascii.
  - vm_compute. now left.
  - vm_compute. tauto.
Defined.

(** *** How a match begins *)

Lemma in_matches_seq tbl a b pw s x :
  In x (matches tbl (Seq a b) pw s) ->
  exists pw' s', In (pw', s') (matches tbl a pw s) /\ In x (matches tbl b pw' s').
Proof.
  cbn [matches]. intros H. apply in_flat_map in H.
  destruct H as [[pw' s'] [H1 H2]]. now exists pw', s'.
Qed.

Lemma in_matches_cls tbl f pw s pw' s' :
  In (pw', s') (matches tbl (Cls f) pw s) -> exists c, s = c :: s' /\ f c = true.
Proof.
  cbn [matches]. destruct s as [|c s0]; [contradiction|].
  destruct (f c) eqn:E; [|contradiction].
  intros [[= _ <-]|[]]. now exists c.
Qed.

Lemma in_matches_alt tbl a b pw s x :
  In x (matches tbl (Alt a b) pw s) ->
  In x (matches tbl a pw s) \/ In x (matches tbl b pw s).
Proof. cbn [matches]. apply in_app_or. Qed.

Lemma in_matches_eps tbl pw s pw' s' :
  In (pw', s') (matches tbl Eps pw s) -> s' = s.
Proof. cbn [matches]. now intros [[= _ <-]|[]]. Qed.

Ltac open_match :=
  repeat match goal with
         | H : In _ (matches _ (Seq _ _) _ _) |- _ =>
             apply in_matches_seq in H;
             let pw := fresh "pw" in let s := fresh "s" in
             let H1 := fresh "H" in
             destruct H as [pw [s [H1 H]]]
         | H : In _ (matches _ (Cls _) _ _) |- _ =>
             apply in_matches_cls in H;
             let c := fresh "c" in let E := fresh "E" in
             destruct H as [c [-> E]]
         | H : In _ (matches _ Eps _ _) |- _ =>
             apply in_matches_eps in H; subst
         | H : In _ (matches _ (Alt _ _) _ _) |- _ =>
             apply in_matches_alt in H; destruct H as [H|H]
         end.

(** The text at a match: a scheme or [www.], in any letter case, and
    at least one more character inside the match. *)
Lemma url_match_begins tbl pw s len :
  match_at tbl URL_REGEX pw s = Some len ->
  (begins_with HTTP_ANY_CASE s = true /\ 7 < len)
  \/ (begins_with HTTPS_ANY_CASE s = true /\ 8 < len)
  \/ (begins_with (WWW_ANY_CASE ++ [[46%N]]) s = true /\ 4 < len).
Proof.
  unfold match_at.
  destruct (matches tbl URL_REGEX pw s) as [|[p rest] l] eqn:E; [discriminate|].
  intros [= <-].
  assert (In (p, rest) (matches tbl URL_REGEX pw s)) as H
    by (rewrite E; now left).
  clear E. unfold URL_REGEX in H.
  apply in_matches_seq in H. destruct H as [pw0 [s0 [Hb H]]].
  assert (s0 = s) as ->.
  { cbn [matches] in Hb. destruct (at_boundary tbl pw s); [|contradiction].
    now destruct Hb as [[= _ <-]|[]]. }
  clear Hb. apply in_matches_seq in H. destruct H as [pw1 [s1 [Hpre H]]].
  apply matches_length in H. cbn [minlen plus Nat.add] in H.
  apply in_matches_alt in Hpre. unfold seq, opt, icase, chr in Hpre.
  cbn [fold_right] in Hpre.
  destruct Hpre as [Hpre|Hpre]; open_match;
    repeat match goal with
           | E : mem _ _ = true |- _ => vm_compute in E
           | E : N.eqb _ _ = true |- _ => apply N.eqb_eq in E; subst
           end;
    cbn [length] in *.
  - right. left. split; [|lia].
    cbn [begins_with HTTPS_ANY_CASE]. unfold mem.
    repeat match goal with E : _ = true |- _ => revert E end.
    vm_compute. intros. now repeat match goal with E : _ = true |- _ =>
      rewrite E; clear E end.
  - left. split; [|lia].
    cbn [begins_with HTTP_ANY_CASE]. unfold mem.
    repeat match goal with E : _ = true |- _ => revert E end.
    vm_compute. intros. now repeat match goal with E : _ = true |- _ =>
      rewrite E; clear E end.
  - right. right. split; [|lia].
    cbn [begins_with WWW_ANY_CASE app]. unfold mem.
    repeat match goal with E : _ = true |- _ => revert E end.
    vm_compute. intros. now repeat match goal with E : _ = true |- _ =>
      rewrite E; clear E end.
Qed.

Lemma lstrip_by_not_all f x : forallb f x = false -> lstrip_by f x <> [].
Proof.
  induction x as [|c x IH]; simpl; [discriminate|].
  destruct (f c); [exact IH|discriminate].
Qed.

Lemma rstrip_by_cons f c m :
  rstrip_by f (c :: m)
  = match rstrip_by f m with
    | [] => if f c then [] else [c]
    | r => c :: r
    end.
Proof.
  unfold rstrip_by. cbn [rev]. rewrite lstrip_by_app.
  destruct (forallb f (rev m)) eqn:E.
  - rewrite (lstrip_by_all f (rev m) E). simpl. now destruct (f c).
  - rewrite List.rev_app_distr. simpl.
    destruct (rev (lstrip_by f (rev m))) eqn:E'; [|reflexivity].
    apply (f_equal (@rev _)) in E'. rewrite List.rev_involutive in E'.
    now apply lstrip_by_not_all in E.
Qed.

(** Stripping the end leaves a beginning whose last character is not
    strippable. *)
Lemma begins_with_rstrip f classes :
  classes <> [] ->
  (forall c, In c (List.last classes []) -> f c = false) ->
  forall m, begins_with classes m = true ->
            begins_with classes (rstrip_by f m) = true.
Proof.
  induction classes as [|cs classes IH]; [congruence|].
  intros _ Hlast [|c m]; [discriminate|].
  cbn [begins_with]. intros H. apply andb_true_iff in H. destruct H as [Hc Hm].
  rewrite rstrip_by_cons. destruct classes as [|cs' classes'].
  - assert (f c = false) as Hf.
    { apply Hlast. simpl. unfold mem in Hc. rewrite existsb_exists in Hc.
      destruct Hc as [x [Hx Hcx]]. apply N.eqb_eq in Hcx. now subst. }
    rewrite Hf. destruct (rstrip_by f m); cbn [begins_with]; now rewrite Hc.
  - assert (begins_with (cs' :: classes') (rstrip_by f m) = true) as Hr.
    { apply IH; [discriminate|exact Hlast|exact Hm]. }
    destruct (rstrip_by f m) as [|x r]; [discriminate|].
    cbn [begins_with] in *. now rewrite Hc, Hr.
Qed.

Lemma begins_with_firstn classes n s :
  length classes <= n ->
  begins_with classes (firstn n s) = begins_with classes s.
Proof.
  revert n s. induction classes as [|cs classes IH]; intros n s Hn;
    [reflexivity|].
  simpl in Hn. destruct n as [|n]; [lia|]. destruct s as [|c s]; [reflexivity|].
  cbn [firstn begins_with]. rewrite IH by lia. reflexivity.
Qed.

Lemma begins_with_app_l cl1 cl2 s :
  begins_with (cl1 ++ cl2) s = true -> begins_with cl1 s = true.
Proof.
  revert s. induction cl1 as [|cs cl1 IH]; intros s; [reflexivity|].
  destruct s as [|c s]; [discriminate|]. cbn [app begins_with].
  rewrite !andb_true_iff. intros [H1 H2]. split; [exact H1|now apply IH].
Qed.

(** X5: every extracted URL begins, in some letter case, with
    [http://], [https://] or [www]; in particular none is empty.  (A
    match that begins with a scheme keeps it through the strip; one
    that begins with [www.] keeps at least [www], and is given
    [http://] only when it still begins with [www.] in lower case.) *)
Theorem extract_urls_begin tbl text u :
  In u (extract_urls tbl text) ->
  begins_with HTTP_ANY_CASE u || begins_with HTTPS_ANY_CASE u
  || begins_with WWW_ANY_CASE u = true.
Proof.
  intros Hu. unfold extract_urls in Hu. apply in_map_iff in Hu.
  destruct Hu as [m [<- Hm]]. unfold finditer in Hm.
  apply finditer_from_In in Hm. destruct Hm as [pw [s [len [Hm ->]]]].
  unfold normalize_url, rstrip.
  destruct (startswith _ (lit "www.")); [reflexivity|].
  apply url_match_begins in Hm.
  destruct Hm as [[Hb Hl]|[[Hb Hl]|[Hb Hl]]].
  - rewrite begins_with_rstrip; [reflexivity|discriminate| |].
    + intros c Hc. simpl in Hc. destruct Hc as [<-|[]]. reflexivity.
    + rewrite begins_with_firstn; [exact Hb|simpl; lia].
  - rewrite (begins_with_rstrip _ HTTPS_ANY_CASE);
      [now rewrite orb_true_r|discriminate| |].
    + intros c Hc. simpl in Hc. destruct Hc as [<-|[]]. reflexivity.
    + rewrite begins_with_firstn; [exact Hb|simpl; lia].
  - rewrite (begins_with_rstrip _ WWW_ANY_CASE);
      [now rewrite !orb_true_r|discriminate| |].
    + intros c Hc. simpl in Hc. destruct Hc as [<-|[<-|[]]]; reflexivity.
    + rewrite begins_with_firstn; [|simpl; lia].
      now apply begins_with_app_l in Hb.
Qed.

Lemma extract_urls_begin_witness :
  begins_with HTTP_ANY_CASE (lit "WWW.example.org")
  || begins_with HTTPS_ANY_CASE (lit "WWW.example.org")
  || begins_with WWW_ANY_CASE (lit "WWW.example.org") = true.
Proof.
  apply (extract_urls_begin ascii_word (lit "see WWW.example.org.")).
  vm_compute. now left.
Defined.

(** ** The matches in the text *)

Lemma finditer_from_interleave tbl r :
  0 < minlen r ->
  forall s pw skip, skip <= length s ->
    exists gaps,
      length gaps = S (length (finditer_from tbl r pw skip s))
      /\ skipn skip s = interleave gaps (finditer_from tbl r pw skip s).
Proof.
  intros Hmin. induction s as [|c s IH]; intros pw skip Hskip.
  - exists [[]]. simpl in Hskip. assert (skip = 0) as -> by lia. now split.
  - cbn [finditer_from]. destruct skip as [|n].
    + destruct (match_at tbl r pw (c :: s)) as [len|] eqn:E.
      * apply match_at_le in E. destruct len as [|len]; [lia|].
        simpl in E. destruct (IH (tbl c) (S len - 1)) as [gaps [Hl Hg]];
          [lia|].
        exists ([] :: gaps). split; [simpl; now rewrite Hl|].
        cbn [interleave app skipn]. rewrite <- Hg.
        replace (S len - 1) with len by lia.
        now rewrite <- (List.firstn_skipn (S len) (c :: s)) at 1.
      * destruct (IH (tbl c) 0) as [gaps [Hl Hg]]; [lia|].
        destruct gaps as [|g gaps]; [discriminate|].
        exists ((c :: g) :: gaps). split; [exact Hl|].
        cbn [skipn] in *.
        transitivity (c :: interleave (g :: gaps) (finditer_from tbl r (tbl c) 0 s)).
        -- f_equal. exact Hg.
        -- now destruct (finditer_from tbl r (tbl c) 0 s).
    + simpl in Hskip. destruct (IH (tbl c) n) as [gaps [Hl Hg]]; [lia|].
      exists gaps. split; [exact Hl|exact Hg].
Qed.

(** X6: the matches of [URL_REGEX] lie in the text one after the
    other, without overlap, in the order in which they are emitted:
    the text is a gap, the first match, a gap, the second match, and
    so on to a last gap. *)
Theorem finditer_matches_in_order tbl text :
  exists gaps,
    length gaps = S (length (finditer tbl URL_REGEX text))
    /\ text = interleave gaps (finditer tbl URL_REGEX text).
Proof.
  destruct (finditer_from_interleave tbl URL_REGEX) with
    (s := text) (pw := false) (skip := 0) as [gaps H].
  - rewrite minlen_URL. lia.
  - lia.
  - now exists gaps.
Qed.

Example finditer_in_order_demo :
  finditer ascii_word URL_REGEX (lit "a http://b.org, www.c.d!")
  = [lit "http://b.org,"; lit "www.c.d!"]
  /\ lit "a http://b.org, www.c.d!"
     = interleave [lit "a "; lit " "; []] [lit "http://b.org,"; lit "www.c.d!"].
Proof. vm_compute. split; reflexivity. Qed.

(** ** URLs and lines *)

Lemma extract_urls_join_lines tbl ls :
  word_table_ok tbl ->
  extract_urls tbl (join [NL] ls) = flat_map (extract_urls tbl) ls.
Proof.
  intros Hw. induction ls as [|x ls IH]; [reflexivity|].
  destruct ls as [|y ls].
  - simpl. now rewrite List.app_nil_r.
  - rewrite join_cons_cons. cbn [app].
    rewrite extract_urls_cut; [|exact Hw|reflexivity].
    rewrite IH. reflexivity.
Qed.

(** X7: no URL spans two recognized lines: the URLs of an image are
    those of its regions' lines, taken one line after the other in
    reading order. *)
Theorem urls_of_text_block tbl (rs : list Observation) :
  word_table_ok tbl ->
  extract_urls tbl (reconstruct rs)
  = flat_map (extract_urls tbl) (somes (map line_of (list_sort obs_lt rs))).
Proof. intros Hw. unfold reconstruct. now apply extract_urls_join_lines. Qed.

Lemma urls_of_text_block_witness :
  extract_urls ascii_word
    (reconstruct [obs 0 0.5 "see www.a.org, and"; obs 0 0.9 "http://b.org"])
  = flat_map (extract_urls ascii_word)
      (somes (map line_of
         (list_sort obs_lt
            [obs 0 0.5 "see www.a.org, and"; obs 0 0.9 "http://b.org"]))).
Proof.
  apply (urls_of_text_block ascii_word). exact word_table_ok_ascii.
Defined.

(** ** [strip] *)

Lemma lstrip_by_idem f s : lstrip_by f (lstrip_by f s) = lstrip_by f s.
Proof.
  induction s as [|c s IH]; [reflexivity|]. cbn [lstrip_by].
  destruct (f c) eqn:E; [exact IH|]. cbn [lstrip_by]. now rewrite E.
Qed.

Lemma lstrip_by_head_keep f c s : f c = false -> lstrip_by f (c :: s) = c :: s.
Proof. intros H. cbn [lstrip_by]. now rewrite H. Qed.

Lemma strip_idem s : strip (strip s) = strip s.
Proof.
  unfold strip.
  assert (lstrip_by is_space (rstrip_by is_space (lstrip_by is_space s))
          = rstrip_by is_space (lstrip_by is_space s)) as ->.
  { destruct (lstrip_by is_space s) as [|c y] eqn:E; [reflexivity|].
    apply lstrip_by_head in E. rewrite rstrip_by_cons.
    destruct (rstrip_by is_space y); rewrite ?E; now apply lstrip_by_head_keep. }
  unfold rstrip_by at 1 2. rewrite List.rev_involutive, lstrip_by_idem.
  reflexivity.
Qed.

(** X8: a plain block has no white space at its ends: stripping it
    again changes nothing, so the sections of [all_text.txt] neither
    begin nor end with a blank line. *)
Theorem plain_block_stripped section :
  strip (plain_block section) = plain_block section
  /\ match plain_block section with
     | c :: _ => is_space c = false
     | [] => True
     end
  /\ match rev (plain_block section) with
     | c :: _ => is_space c = false
     | [] => True
     end.
Proof.
  unfold plain_block. split; [apply strip_idem|]. split.
  - unfold strip.
    destruct (lstrip_by is_space (join [NL] _)) as [|x y] eqn:E; [exact I|].
    apply lstrip_by_head in E. rewrite rstrip_by_cons.
    destruct (rstrip_by is_space y); [rewrite E|]; cbn [app]; exact E.
  - unfold strip, rstrip_by. rewrite List.rev_involutive.
    destruct (lstrip_by is_space (rev _)) as [|c r] eqn:E; [exact I|].
    now apply lstrip_by_head in E.
Qed.

(** ** The language tags *)

Lemma split_on_blank s :
  blank_tags s ->
  Forall (fun piece => forallb is_space piece = true) (split_on 44%N s).
Proof.
  induction 1 as [|c s Hc Hs IH]; cbn [split_on].
  - repeat constructor.
  - destruct (N.eqb_spec c 44) as [->|Hne].
    + constructor; [reflexivity|exact IH].
    + destruct Hc as [Hc|Hc]; [|contradiction].
      destruct (split_on 44%N s) as [|l ls].
      * repeat constructor. simpl. now rewrite Hc.
      * inversion IH as [|? ? Hl Hls]; subst. constructor; [|exact Hls].
        simpl. now rewrite Hc, Hl.
Qed.

Lemma strip_all_space piece : forallb is_space piece = true -> strip piece = [].
Proof. intros H. unfold strip. now rewrite lstrip_by_all. Qed.

Lemma parse_langs_blank lang_str :
  blank_tags lang_str -> parse_langs lang_str = [lit "en-US"; lit "pl-PL"].
Proof.
  intros H. unfold parse_langs. destruct lang_str as [|c s]; [reflexivity|].
  apply split_on_blank in H.
  assert (List.filter (fun s0 => negb (str_eqb s0 []))
                      (map strip (split_on 44%N (c :: s))) = []) as ->;
    [|reflexivity].
  induction H as [|piece ps Hp _ IH]; [reflexivity|].
  cbn [map List.filter]. now rewrite (strip_all_space piece Hp).
Qed.

(** X9: the language tags handed to the OCR engine are never an empty
    list; each tag is non-empty and has no white space at its ends;
    and a language string that is empty or holds only commas and white
    space gives the default tags [en-US] and [pl-PL]. *)
Theorem parse_langs_tags lang_str :
  parse_langs lang_str <> []
  /\ (forall tag, In tag (parse_langs lang_str) -> tag <> [] /\ strip tag = tag)
  /\ (blank_tags lang_str -> parse_langs lang_str = [lit "en-US"; lit "pl-PL"]).
Proof.
  split; [|split].
  - unfold parse_langs. now destruct lang_str; [|destruct (List.filter _ _)].
  - intros tag Hin. unfold parse_langs in Hin.
    assert (forall l, In tag (List.filter (fun s => negb (str_eqb s []))
                                          (map strip l)) ->
                      tag <> [] /\ strip tag = tag) as Hf.
    { intros l H. apply List.filter_In in H. destruct H as [H1 H2].
      apply in_map_iff in H1. destruct H1 as [x [<- _]].
      split; [|apply strip_idem].
      intros E. rewrite E in H2. discriminate. }
    assert (In tag [lit "en-US"; lit "pl-PL"] -> tag <> [] /\ strip tag = tag)
      as Hd.
    { intros [<-|[<-|[]]]; split; (discriminate || reflexivity). }
    destruct lang_str as [|c s]; [now apply Hd|].
    destruct (List.filter _ (map strip (split_on 44%N (c :: s)))) as [|t ts] eqn:E.
    + now apply Hd.
    + apply (Hf (split_on 44%N (c :: s))). now rewrite E.
  - apply parse_langs_blank.
Qed.

Lemma parse_langs_tags_witness :
  parse_langs (lit " , ,") = [lit "en-US"; lit "pl-PL"].
Proof.
  apply (proj2 (proj2 (parse_langs_tags (lit " , ,")))).
  repeat constructor; (now left) || (now right).
Defined.

Example parse_langs_demo :
  parse_langs (lit " de-DE, ,fr-FR ,") = [lit "de-DE"; lit "fr-FR"].
Proof. vm_compute. reflexivity. Qed.

Lemma run_langs is_word str_lower env in_dir out_dir l1 l2 :
  parse_langs l1 = parse_langs l2 ->
  run is_word str_lower env in_dir out_dir l1
  = run is_word str_lower env in_dir out_dir l2.
Proof. intros H. unfold run. now rewrite H. Qed.

(** X10: the language argument of the script counts through its tags
    only: leaving it out, or giving one that is empty or holds only
    commas and white space, is giving [en-US,pl-PL]. *)
Theorem main_default_languages is_word str_lower env prog in_dir out_dir lang_str :
  blank_tags lang_str ->
  main is_word str_lower env [prog; in_dir; out_dir; lang_str]
  = main is_word str_lower env [prog; in_dir; out_dir]
  /\ main is_word str_lower env [prog; in_dir; out_dir]
     = main is_word str_lower env [prog; in_dir; out_dir; lit "en-US,pl-PL"].
Proof.
  intros Hb. unfold main. cbn [length Nat.ltb Nat.leb nth]. split; f_equal.
  - apply run_langs. now rewrite parse_langs_blank.
Qed.

Lemma main_default_languages_witness :
  main ascii_word ascii_lower demo_env [lit "app.py"; lit "in"; lit "out"; []]
  = main ascii_word ascii_lower demo_env [lit "app.py"; lit "in"; lit "out"].
Proof.
  apply (main_default_languages ascii_word ascii_lower demo_env).
  constructor.
Defined.

(** ** Paths: [rfind], [basename], [splitext], [join] *)

Lemma mem_app c a b : mem c (a ++ b) = mem c a || mem c b.
Proof. unfold mem. apply List.existsb_app. Qed.

Lemma rfind_spec c s :
  (rfind c s = (-1)%Z /\ mem c s = false)
  \/ (exists a b, s = a ++ c :: b /\ mem c b = false
                  /\ rfind c s = Z.of_nat (length a)).
Proof.
  induction s as [|x s IH] using List.rev_ind.
  - left. now split.
  - unfold rfind in *. rewrite rfind_from_app. cbn [rfind_from].
    destruct (N.eqb_spec x c) as [->|Hne].
    + right. exists s, []. repeat split; lia.
    + assert (mem c [x] = false) as Hx.
      { simpl. rewrite orb_false_r. apply N.eqb_neq. congruence. }
      destruct IH as [[Hr Hm]|[a [b [-> [Hb Hr]]]]].
      * left. split; [exact Hr|]. now rewrite mem_app, Hm, Hx.
      * right. exists a, (b ++ [x]). rewrite <- List.app_assoc.
        repeat split; [|exact Hr]. now rewrite mem_app, Hb, Hx.
Qed.

Lemma mem_false_In c s : mem c s = false <-> ~ In c s.
Proof.
  unfold mem. split.
  - intros H Hin. assert (existsb (N.eqb c) s = true) as E.
    { apply existsb_exists. exists c. split; [exact Hin|apply N.eqb_refl]. }
    congruence.
  - intros H. destruct (existsb (N.eqb c) s) eqn:E; [|reflexivity].
    apply existsb_exists in E. destruct E as [x [Hx Hcx]].
    apply N.eqb_eq in Hcx. now subst.
Qed.

Lemma skipn_app_exact {X} (a b : list X) : skipn (length a) (a ++ b) = b.
Proof. induction a; [reflexivity|assumption]. Qed.

Lemma skipn_app_cons {X} (a : list X) c b :
  skipn (length a + 1) (a ++ c :: b) = b.
Proof. induction a; [reflexivity|assumption]. Qed.

Lemma basename_no_slash_inside p : mem SLASH (basename p) = false.
Proof.
  unfold basename. destruct (rfind_spec SLASH p) as [[Hr Hm]|[a [b [-> [Hb Hr]]]]].
  - now rewrite Hr.
  - rewrite Hr. replace (Z.to_nat (Z.of_nat (length a) + 1)) with (length a + 1)
      by lia.
    now rewrite skipn_app_cons.
Qed.

Lemma In_skipn_le {X} (x : X) n m l : n <= m -> In x (skipn m l) -> In x (skipn n l).
Proof.
  intros Hnm H. replace m with ((m - n) + n) in H by lia.
  rewrite <- List.skipn_skipn in H.
  rewrite <- (List.firstn_skipn (m - n) (skipn n l)). apply in_or_app. now right.
Qed.

Lemma splitext_joined p : fst (splitext p) ++ snd (splitext p) = p.
Proof.
  unfold splitext. cbv zeta. destruct (_ && _); cbn [fst snd].
  - apply List.firstn_skipn.
  - apply List.app_nil_r.
Qed.

Lemma splitext_extension p :
  snd (splitext p) = []
  \/ exists e, snd (splitext p) = DOT :: e
               /\ mem DOT e = false /\ mem SLASH e = false.
Proof.
  unfold splitext. cbv zeta.
  destruct ((rfind SLASH p <? rfind DOT p)%Z && _) eqn:E; cbn [fst snd];
    [|now left].
  right. apply andb_true_iff in E. destruct E as [E _]. apply Z.ltb_lt in E.
  destruct (rfind_spec DOT p) as [[Hr Hm]|[a [b [Hp [Hb Hr]]]]].
  - destruct (rfind_spec SLASH p) as [[Hs _]|[a' [b' [_ [_ Hs]]]]]; lia.
  - exists b. rewrite Hr, Nat2Z.id. split; [|split; [exact Hb|]].
    + rewrite Hp. apply skipn_app_exact.
    + apply mem_false_In. intros Hin.
      destruct (rfind_spec SLASH p) as [[_ Hm]|[a' [b' [Hp' [Hb' Hs]]]]].
      * apply mem_false_In in Hm. apply Hm. rewrite Hp.
        apply in_or_app. right. now right.
      * apply mem_false_In in Hb'. apply Hb'.
        assert (b = skipn (length a + 1) p) as Eb
          by (rewrite Hp; now rewrite skipn_app_cons).
        assert (b' = skipn (length a' + 1) p) as Eb'
          by (rewrite Hp'; now rewrite skipn_app_cons).
        rewrite Eb', Eb in *. eapply In_skipn_le; [|exact Hin]. lia.
Qed.

Example splitext_demo :
  splitext (lit "archive.tar.GZ") = (lit "archive.tar", lit ".GZ")
  /\ splitext (lit "noext") = (lit "noext", [])
  /\ splitext (lit ".bashrc") = (lit ".bashrc", []).
Proof. vm_compute. repeat split. Qed.

Lemma image_base_no_slash p : mem SLASH (image_base p) = false.
Proof.
  unfold image_base. apply mem_false_In. intros Hin.
  pose proof (basename_no_slash_inside p) as Hb. apply mem_false_In in Hb.
  apply Hb. rewrite <- (splitext_joined (basename p)).
  apply in_or_app. now left.
Qed.

(** X11: the base name under which the text of an image is written
    and the extension by which discovery judges the file make up the
    file name of the image; there is no slash in the base name, and the
    extension is empty, or a dot followed by characters among which
    there is neither a dot nor a slash. *)
Theorem image_base_and_extension p :
  image_base p ++ snd (splitext (basename p)) = basename p
  /\ mem SLASH (image_base p) = false
  /\ (snd (splitext (basename p)) = []
      \/ exists e, snd (splitext (basename p)) = DOT :: e
                   /\ mem DOT e = false /\ mem SLASH e = false).
Proof.
  split; [apply splitext_joined|]. split; [apply image_base_no_slash|].
  apply splitext_extension.
Qed.

(** What [os.path.join] puts in front of a relative second part
    depends on the first part only, and begins with it. *)
Lemma path_join_front a :
  exists sep,
    forall b, startswith b [SLASH] = false -> path_join a b = (a ++ sep) ++ b.
Proof.
  unfold path_join. destruct (rev a) as [|c r] eqn:E.
  - apply (f_equal (@rev _)) in E. rewrite List.rev_involutive in E.
    simpl in E. subst a. exists []. intros b Hb. now rewrite Hb.
  - destruct (c =? SLASH)%N.
    + exists []. intros b Hb. now rewrite Hb, List.app_nil_r.
    + exists [SLASH]. intros b Hb. rewrite Hb.
      now rewrite <- List.app_assoc.
Qed.

Lemma txt_name_relative p : startswith (image_base p ++ lit ".txt") [SLASH] = false.
Proof.
  pose proof (image_base_no_slash p) as H.
  destruct (image_base p) as [|c b]; [reflexivity|].
  unfold mem in H. cbn [existsb] in H. apply orb_false_iff in H.
  destruct H as [H _]. cbn [app startswith]. now rewrite H.
Qed.

(** ** Where a run writes *)

Section RunPaths.
Variable is_word : char -> bool.
Variable str_lower : str -> str.
Variable env : Env.

(** X12: every file that a run writes has a path that begins with the
    (expanded) output directory: the per-image files, named after base
    names in which there is no slash, and the four aggregate files. *)
Theorem run_writes_under_out_dir in_dir out_dir lang_str path content :
  In (path, content) (writes (run is_word str_lower env in_dir out_dir lang_str)) ->
  exists rest, path = expanduser env out_dir ++ rest.
Proof.
  intros Hin.
  destruct (list_images str_lower env in_dir) as [|p0 imgs0] eqn:E.
  - unfold run in Hin. rewrite E in Hin. contradiction.
  - rewrite run_writes in Hin by (rewrite E; discriminate).
    destruct (path_join_front (expanduser env out_dir)) as [sep Hout].
    apply in_app_or in Hin. destruct Hin as [Hin|Hin].
    + apply in_map_iff in Hin. destruct Hin as [q [[= <- _] _]].
      unfold txt_path_of.
      destruct (path_join_front (path_join (expanduser env out_dir) (lit "txt")))
        as [sep' Htxt].
      rewrite Htxt by apply txt_name_relative.
      rewrite Hout by reflexivity.
      eexists. rewrite <- !List.app_assoc. reflexivity.
    + unfold aggregate_writes in Hin. simpl in Hin.
      destruct Hin as [[= <- _]|[[= <- _]|[[= <- _]|[[= <- _]|[]]]]];
        rewrite Hout by reflexivity;
        eexists; rewrite <- List.app_assoc; reflexivity.
Qed.

Lemma filter_none {X} (f : X -> bool) l :
  (forall x, In x l -> f x = false) -> List.filter f l = [].
Proof.
  induction l as [|x l IH]; intros H; [reflexivity|]. cbn [List.filter].
  rewrite (H x) by now left. apply IH. intros y Hy. apply H. now right.
Qed.

Lemma last_write_app (ws1 ws2 : list (str * str)) path :
  (forall pc, In pc ws2 -> str_eqb (fst pc) path = false) ->
  List.filter (fun pc => str_eqb (fst pc) path) (rev (ws1 ++ ws2))
  = List.filter (fun pc => str_eqb (fst pc) path) (rev ws1).
Proof.
  intros H. rewrite List.rev_app_distr, List.filter_app.
  rewrite (filter_none _ (rev ws2)); [reflexivity|].
  intros pc Hpc. apply H. now apply List.in_rev.
Qed.

Lemma last_write_mid (ws1 ws2 : list (str * str)) pc path :
  fst pc = path ->
  (forall x, In x ws2 -> str_eqb (fst x) path = false) ->
  List.filter (fun x => str_eqb (fst x) path) (rev (ws1 ++ pc :: ws2))
  = pc :: List.filter (fun x => str_eqb (fst x) path) (rev ws1).
Proof.
  intros Hpc H. rewrite List.rev_app_distr. cbn [rev].
  rewrite <- List.app_assoc, List.filter_app.
  rewrite (filter_none _ (rev ws2)).
  - cbn [app List.filter]. now rewrite Hpc, str_eqb_refl.
  - intros x Hx. apply H. now apply List.in_rev.
Qed.

(** X13: two images with the same base name (the same stem, another
    extension) share one text file, which is written once for each:
    after the run it holds the text of the last of them in the order
    of processing. *)
Theorem txt_file_holds_last_image in_dir out_dir lang_str l1 p l2 :
  list_images str_lower env in_dir = l1 ++ p :: l2 ->
  (forall q, In q l2 -> image_base q <> image_base p) ->
  file_content (run is_word str_lower env in_dir out_dir lang_str)
    (txt_path_of (path_join (expanduser env out_dir) (lit "txt")) p)
  = Some (image_text env (parse_langs lang_str) p).
Proof.
  intros Himgs Hlast. unfold file_content.
  rewrite run_writes by (rewrite Himgs; now destruct l1).
  rewrite Himgs.
  destruct (path_join_front (expanduser env out_dir)) as [sep Hout].
  destruct (path_join_front (path_join (expanduser env out_dir) (lit "txt")))
    as [sep' Htxt].
  assert (forall q, txt_path_of (path_join (expanduser env out_dir) (lit "txt")) q
                    = ((expanduser env out_dir ++ sep)
                       ++ lit "txt" ++ sep' ++ image_base q ++ lit ".txt"))
    as Hpath.
  { intros q. unfold txt_path_of. rewrite Htxt by apply txt_name_relative.
    rewrite Hout by reflexivity. now rewrite <- !List.app_assoc. }
  rewrite last_write_app.
  - rewrite List.map_app. cbn [map]. rewrite last_write_mid; [reflexivity| |].
    + reflexivity.
    + intros pc Hpc. apply in_map_iff in Hpc. destruct Hpc as [q [<- Hq]].
      cbn [fst]. apply str_eqb_neq. rewrite !Hpath. intros Heq.
      apply List.app_inv_head in Heq. apply List.app_inv_head in Heq.
      apply List.app_inv_head in Heq. apply List.app_inv_tail in Heq.
      now apply (Hlast q).
  - intros pc Hpc. unfold aggregate_writes in Hpc. simpl in Hpc.
    destruct Hpc as [<-|[<-|[<-|[<-|[]]]]]; cbn [fst];
      apply str_eqb_neq; rewrite Hpath, Hout by reflexivity;
      intros Heq; apply List.app_inv_head in Heq; discriminate Heq.
Qed.

End RunPaths.


Lemma txt_file_holds_last_image_witness :
  file_content
    (run ascii_word ascii_lower twin_env (lit "in") (lit "out") (lit "en-US"))
    (lit "out/txt/a.txt")
  = Some (lit "from png").
Proof.
  apply (txt_file_holds_last_image ascii_word ascii_lower twin_env
           (lit "in") (lit "out") (lit "en-US")
           [lit "in/a.jpg"] (lit "in/a.png") []).
  - vm_compute. reflexivity.
  - intros q [].
Defined.

Lemma run_writes_under_out_dir_witness :
  exists rest, lit "out/urls.csv" = expanduser demo_env (lit "out") ++ rest.
Proof.
  apply (run_writes_under_out_dir ascii_word ascii_lower demo_env
           (lit "in") (lit "out") (lit "en-US") (lit "out/urls.csv")
           (urls_csv (flat_map
              (image_occurrences ascii_word demo_env (parse_langs (lit "en-US")))
              (list_images ascii_lower demo_env (lit "in"))))).
  rewrite run_writes by (vm_compute; discriminate).
  apply in_or_app. right. unfold aggregate_writes.
  do 3 right. left. reflexivity.
Defined.

(** ** The strip of a match *)

Lemma lstrip_by_split f s :
  exists pre, s = pre ++ lstrip_by f s /\ forallb f pre = true.
Proof.
  induction s as [|c s [pre [Hs Hp]]]; [now exists []|]. cbn [lstrip_by].
  destruct (f c) eqn:E.
  - exists (c :: pre). split; [simpl; now f_equal|]. simpl. now rewrite E.
  - now exists [].
Qed.

Lemma forallb_rev {X} (f : X -> bool) l : forallb f (rev l) = forallb f l.
Proof.
  induction l as [|x l IH]; [reflexivity|]. simpl.
  rewrite List.forallb_app, IH. simpl. rewrite andb_true_r. apply andb_comm.
Qed.

Lemma rstrip_by_split f s :
  exists tail, s = rstrip_by f s ++ tail /\ forallb f tail = true.
Proof.
  destruct (lstrip_by_split f (rev s)) as [pre [Hs Hp]].
  exists (rev pre). split; [|now rewrite forallb_rev].
  unfold rstrip_by. rewrite <- List.rev_app_distr, <- Hs.
  now rewrite List.rev_involutive.
Qed.

(** X14: what the extractor makes of a match: exactly the longest run
    of [.,;:!)?]] characters at its end is removed (what is kept does
    not end with one), nothing else is changed, and [http://] is put
    in front when what is kept begins with [www.] in lower case. *)
Theorem normalize_url_strips_the_trailing_run m :
  exists kept tail,
    m = kept ++ tail
    /\ forallb strippable tail = true
    /\ match rev kept with
       | c :: _ => strippable c = false
       | [] => True
       end
    /\ normalize_url m
       = if startswith kept (lit "www.") then lit "http://" ++ kept else kept.
Proof.
  destruct (rstrip_by_split strippable m) as [tail [Hm Ht]].
  exists (rstrip_by strippable m), tail.
  split; [exact Hm|]. split; [exact Ht|]. split; [|reflexivity].
  unfold rstrip_by. rewrite List.rev_involutive.
  destruct (lstrip_by strippable (rev m)) as [|c r] eqn:E; [exact I|].
  now apply lstrip_by_head in E.
Qed.

Example normalize_url_demo :
  normalize_url (lit "www.a.org/x).,") = lit "http://www.a.org/x"
  /\ normalize_url (lit "http://a.org/?q=1!?") = lit "http://a.org/?q=1".
Proof. vm_compute. split; reflexivity. Qed.

(** ** Greedy matching: where a match ends *)

Lemma hd_flat_map_some {X Y} (f : X -> list Y) l y :
  hd_error (flat_map f l) = Some y -> exists x, In x l /\ hd_error (f x) = Some y.
Proof.
  induction l as [|x l IH]; cbn [flat_map]; intros H; [discriminate|].
  destruct (f x) as [|z r] eqn:E.
  - destruct (IH H) as [x' [Hx' Hy]]. exists x'. split; [now right|exact Hy].
  - exists x. split; [now left|]. now rewrite E.
Qed.

Lemma hd_flat_map_first {X Y} (f : X -> list Y) x l :
  f x <> [] -> hd_error (flat_map f (x :: l)) = hd_error (f x).
Proof. cbn [flat_map]. now destruct (f x). Qed.

Lemma hd_app_first {X} (a b : list X) : a <> [] -> hd_error (a ++ b) = hd_error a.
Proof. now destruct a. Qed.

Lemma lstrip_by_stops f s : stops_at f (lstrip_by f s).
Proof.
  destruct (lstrip_by f s) as [|c r] eqn:E; [exact I|].
  now apply lstrip_by_head in E.
Qed.

Lemma stops_at_weaken (f g : char -> bool) r :
  (forall c, g c = true -> f c = true) -> stops_at f r -> stops_at g r.
Proof.
  intros H. destruct r as [|c r]; [trivial|]. simpl. intros Hf.
  destruct (g c) eqn:E; [|reflexivity]. apply H in E. congruence.
Qed.

Lemma url_char_in_paren c : url_char c = true -> url_char_paren c = true.
Proof.
  intros H. destruct (url_char_paren c) eqn:E; [reflexivity|].
  unfold url_char, url_char_paren in *.
  apply negb_true_iff, orb_false_iff in H. destruct H as [Hs Hm].
  rewrite Hs in E. cbn [orb] in E. apply negb_false_iff in E.
  unfold mem in *. rewrite existsb_exists in E.
  destruct E as [x [Hx Hcx]].
  assert (existsb (N.eqb c) (QUOTE :: lit "<>'()") = true) as Hm'.
  { apply existsb_exists. exists x. split; [|exact Hcx]. simpl in *. tauto. }
  congruence.
Qed.

Section Greedy.
Variable tbl : char -> bool.

Lemma star_from_not_nil body n pw s : star_from body n pw s <> [].
Proof.
  destruct n; simpl; [discriminate|].
  destruct (flat_map _ _); discriminate.
Qed.

(** The first result of a starred class is the longest one. *)
Lemma first_star_cls f n :
  forall s pw, length s <= n ->
    exists pw', hd_error (star_from (matches tbl (Cls f)) n pw s)
                = Some (pw', lstrip_by f s).
Proof.
  induction n as [|n IH]; intros s pw Hn.
  - destruct s; [|simpl in Hn; lia]. now exists pw.
  - cbn [star_from matches]. destruct s as [|c s]; [now exists pw|].
    cbn [lstrip_by]. destruct (f c) eqn:E; [|now exists pw].
    cbn [flat_map]. simpl in Hn.
    destruct (Nat.ltb_spec (length s) (length (c :: s))) as [_|H];
      [|simpl in H; lia].
    destruct (IH s (tbl c)) as [pw' Hpw']; [lia|]. exists pw'.
    rewrite List.app_nil_r, hd_app_first by apply star_from_not_nil.
    exact Hpw'.
Qed.

Lemma matches_then_eps l :
  flat_map (fun '(pw', s') => matches tbl Eps pw' s') l = l.
Proof.
  induction l as [|[p s] l IH]; [reflexivity|]. cbn [flat_map].
  rewrite IH. reflexivity.
Qed.

Lemma first_group_tail pw x p r :
  hd_error (matches tbl URL_GROUP_TAIL pw x) = Some (p, r) ->
  stops_at url_char_paren r.
Proof.
  unfold URL_GROUP_TAIL, chr. cbn [matches].
  destruct x as [|c x]; [discriminate|].
  destruct (N.eqb 41 c); [|discriminate].
  cbn [flat_map]. rewrite List.app_nil_r, matches_then_eps.
  destruct (first_star_cls url_char_paren (length x) x (tbl c)) as [pw' H];
    [lia|].
  cbn [matches] in H. rewrite H. intros [= _ <-]. apply lstrip_by_stops.
Qed.

Lemma first_group pw t p r :
  hd_error (matches tbl URL_GROUP pw t) = Some (p, r) ->
  stops_at url_char_paren r.
Proof.
  unfold URL_GROUP, chr. cbn [matches].
  destruct t as [|c t]; [discriminate|].
  destruct (N.eqb 40 c); [|discriminate].
  cbn [flat_map]. rewrite List.app_nil_r. intros H.
  apply hd_flat_map_some in H. destruct H as [[pw' x] [_ H]].
  now apply first_group_tail in H.
Qed.

Lemma no_group_after_stop pw t :
  stops_at url_char_paren t -> matches tbl URL_GROUP pw t = [].
Proof.
  unfold URL_GROUP, chr. cbn [matches]. destruct t as [|c t]; [reflexivity|].
  cbn [stops_at]. intros Hc.
  destruct (N.eqb_spec 40 c) as [<-|_]; [vm_compute in Hc; discriminate|].
  reflexivity.
Qed.

Lemma first_star_group n :
  forall pw t p r,
    hd_error (star_from (matches tbl URL_GROUP) n pw t) = Some (p, r) ->
    stops_at url_char t -> stops_at url_char r.
Proof.
  destruct n as [|n]; intros pw t p r H Ht.
  - simpl in H. now inversion H; subst.
  - cbn [star_from] in H.
    destruct (matches tbl URL_GROUP pw t) as [|[pw1 t1] l] eqn:E.
    + simpl in H. now inversion H; subst.
    + assert (stops_at url_char_paren t1) as H1.
      { apply (first_group pw t pw1). now rewrite E. }
      assert (In (pw1, t1) (matches tbl URL_GROUP pw t)) as Hin
        by (rewrite E; now left).
      apply matches_length in Hin. cbn in Hin.
      cbn [flat_map] in H.
      destruct (Nat.ltb_spec (length t1) (length t)) as [_|Hge]; [|lia].
      rewrite <- List.app_assoc, hd_app_first in H by apply star_from_not_nil.
      assert (star_from (matches tbl URL_GROUP) n pw1 t1 = [(pw1, t1)]) as Hs.
      { destruct n; [reflexivity|]. cbn [star_from].
        now rewrite (no_group_after_stop pw1 t1 H1). }
      rewrite Hs in H. inversion H; subst.
      eapply stops_at_weaken; [|exact H1]. apply url_char_in_paren.
Qed.

Lemma first_body pw s p r :
  hd_error (matches tbl URL_BODY pw s) = Some (p, r) -> stops_at url_char r.
Proof.
  unfold URL_BODY, plus.
  change (matches tbl (Seq (Seq (Cls url_char) (Star (Cls url_char)))
                           (Star URL_GROUP)) pw s)
    with (flat_map (fun '(pw', s') =>
                      star_from (matches tbl URL_GROUP) (length s') pw' s')
            (flat_map (fun '(pw', s') =>
                         star_from (matches tbl (Cls url_char)) (length s') pw' s')
               (matches tbl (Cls url_char) pw s))).
  destruct s as [|c s]; [discriminate|].
  change (matches tbl (Cls url_char) pw (c :: s))
    with (if url_char c then [(tbl c, s)] else []).
  destruct (url_char c); [|discriminate].
  cbn [flat_map]. rewrite List.app_nil_r.
  destruct (first_star_cls url_char (length s) s (tbl c)) as [pw' H]; [lia|].
  destruct (star_from (matches tbl (Cls url_char)) (length s) (tbl c) s)
    as [|[pw1 t1] l] eqn:E; [discriminate|].
  cbn [hd_error] in H. injection H as -> ->.
  rewrite hd_flat_map_first by apply star_from_not_nil.
  intros Hh. eapply first_star_group; [exact Hh|]. apply lstrip_by_stops.
Qed.

Lemma URL_REGEX_body :
  exists pre, URL_REGEX = Seq WordBoundary (Seq pre URL_BODY).
Proof. eexists. reflexivity. Qed.

(** A match of [URL_REGEX] goes on as long as the characters are in
    the first class. *)
Lemma match_at_stops pw s len :
  match_at tbl URL_REGEX pw s = Some len -> stops_at url_char (skipn len s).
Proof.
  unfold match_at.
  destruct (matches tbl URL_REGEX pw s) as [|[p rest] l] eqn:E; [discriminate|].
  intros [= <-].
  assert (In (p, rest) (matches tbl URL_REGEX pw s)) as Hin
    by (rewrite E; now left).
  apply matches_suffix in Hin. destruct Hin as [pre Hs].
  assert (skipn (length s - length rest) s = rest) as ->.
  { rewrite Hs at 2. rewrite Hs, List.length_app.
    replace (length pre + length rest - length rest) with (length pre) by lia.
    apply skipn_app_exact. }
  assert (hd_error (matches tbl URL_REGEX pw s) = Some (p, rest)) as Hh
    by now rewrite E.
  clear E Hs. destruct URL_REGEX_body as [a Ha]. rewrite Ha in Hh.
  cbn [matches] in Hh. destruct (at_boundary tbl pw s); [|discriminate].
  cbn [flat_map] in Hh. rewrite List.app_nil_r in Hh.
  apply hd_flat_map_some in Hh. destruct Hh as [[pw' x] [_ Hh]].
  now apply first_body in Hh.
Qed.
End Greedy.

Lemma finditer_from_In_suffix tbl r :
  forall s pw skip m,
    In m (finditer_from tbl r pw skip s) ->
    exists before pw' s' len,
      s = before ++ s' /\ match_at tbl r pw' s' = Some len /\ m = firstn len s'.
Proof.
  induction s as [|c s IH]; cbn [finditer_from]; intros pw skip m Hin;
    [contradiction|].
  assert (forall pw0 skip0,
            In m (finditer_from tbl r pw0 skip0 s) ->
            exists before pw' s' len,
              c :: s = before ++ s' /\ match_at tbl r pw' s' = Some len
              /\ m = firstn len s') as Hrec.
  { intros pw0 skip0 H. apply IH in H.
    destruct H as [before [pw' [s' [len [-> [Hm ->]]]]]].
    now exists (c :: before), pw', s', len. }
  destruct skip as [|n]; [|now apply Hrec in Hin].
  destruct (match_at tbl r pw (c :: s)) as [len|] eqn:E.
  - destruct Hin as [<-|Hin]; [|now apply Hrec in Hin].
    now exists [], pw, (c :: s), len.
  - now apply Hrec in Hin.
Qed.

(** X15: a match is a piece of the text that is not cut short inside
    a run of plain URL characters: what follows it in the text is
    nothing, or begins with white space, an angle bracket, a quote or a
    parenthesis. *)
Theorem url_match_runs_to_a_delimiter tbl text m :
  In m (finditer tbl URL_REGEX text) ->
  exists before after,
    text = before ++ m ++ after /\ stops_at url_char after.
Proof.
  intros Hin. unfold finditer in Hin. apply finditer_from_In_suffix in Hin.
  destruct Hin as [before [pw [s [len [-> [Hm ->]]]]]].
  exists before, (skipn len s). split.
  - now rewrite List.firstn_skipn.
  - now apply match_at_stops in Hm.
Qed.

Lemma url_match_runs_to_a_delimiter_witness :
  exists before after,
    lit "see http://b.org/x(1)y z" = before ++ lit "http://b.org/x(1)y" ++ after
    /\ stops_at url_char after.
Proof.
  apply (url_match_runs_to_a_delimiter ascii_word).
  vm_compute. now left.
Defined.
